(** * httpclientutil.ClientConn: a persistent HTTP/1.1 client connection

    A shallow embedding of [src/httpclientutil/client.go].

    The connection record, the caller-side operations ([Ping], [Hijack],
    [Close], [write], [read], [Do]) and the background [readLoop] are
    translated block by block.  Every stretch of code that runs under
    [cc.mu], every channel operation and every call into a collaborator
    (request serializer, response parser, transport) is one atomic step;
    the results of the collaborators are inputs of the step.  The goroutines
    are interleaved by a labelled transition system ([sys_step]) whose
    runs are lists of events. *)

From Stdlib Require Import String List Bool ZArith Lia.
Import ListNotations.
Local Open Scope string_scope.
Local Open Scope list_scope.

Set Implicit Arguments.

(* ------------------------------------------------------------------ *)
(** ** Errors *)

(** A Go [error] is an interface value: [nil] or a reference to an error
    object, compared by identity.  [option error] plays that role, with
    [None] for [nil].  The package-level sentinels are constructors; errors
    produced by collaborators (serializer, parser, context, transport) are
    [ext] values. *)
Inductive error : Type :=
| ErrPersistEOF        (* "persistent connection closed" *)
| ErrClosed            (* "connection closed by user" *)
| ErrPipeline          (* "pipeline error" *)
| ErrBodyWaitingRead   (* "body data waiting for read" *)
| ErrBodyLeftData      (* "http: some data left in the buffer" *)
| ErrServerClosedConn  (* "http: server closed connection" *)
| errClosed            (* "i/o operation on closed connection" *)
| io_EOF               (* io.EOF *)
| ext (msg : string).

Definition error_eq_dec (a b : error) : {a = b} + {a <> b}.
Proof. decide equality. apply string_dec. Defined.

(** [err == io.EOF] *)
Definition is_EOF (err : error) : bool :=
  if error_eq_dec err io_EOF then true else false.

(* ------------------------------------------------------------------ *)
(** ** Requests, responses, transport handles *)

Module Request.
Record t : Type := mk { Method : string; URL : string; Close : bool }.
End Request.

(** A response body: the stream produced by the parser, or that stream
    wrapped by the read loop in a [bodyEOFSignal]. *)
Inductive ReadCloser : Type :=
| wire_body (id : nat)
| bodyEOFSignal (body : ReadCloser).

Module Response.
Record t : Type :=
  mk { StatusCode : Z; ContentLength : Z; Close : bool; Body : ReadCloser }.
Definition with_Body (b : ReadCloser) (x : t) : t :=
  mk (StatusCode x) (ContentLength x) (Close x) b.
End Response.

(** [net.Conn] values are references to a transport. *)
Definition net_Conn := nat.

(** [*bufio.Reader]: a buffered view over a transport (possibly [nil]). *)
Record bufio_Reader : Type := { rd : option net_Conn }.

Definition bufio_NewReader (c : option net_Conn) : bufio_Reader := {| rd := c |}.

(** The two request serializers a connection can be configured with. *)
Inductive writeReqFn : Type :=
| Request_Write        (* http.Request's Write method *)
| Request_WriteProxy.  (* http.Request's WriteProxy method *)

(* ------------------------------------------------------------------ *)
(** ** Outcomes of an operation *)

(** A block of Go code either completes, parks its goroutine (a channel
    operation that cannot proceed in the current state), or panics. *)
Inductive outcome (A : Type) : Type :=
| Ret (a : A)
| Blocks
| Panics (msg : string).
Arguments Blocks {A}.
Arguments Panics {A} msg.

Definition bind (A B : Type) (m : outcome A) (k : A -> outcome B) : outcome B :=
  match m with
  | Ret a => k a
  | Blocks => Blocks
  | Panics msg => Panics msg
  end.

Notation "x <- m ;; k" := (bind m (fun x => k))
  (at level 61, m at next level, right associativity).
Notation "' p <- m ;; k" := (bind m (fun p => k))
  (at level 61, p pattern, m at next level, right associativity).

(* ------------------------------------------------------------------ *)
(** ** Channels *)

(** A channel value is [nil] ([None]) or a reference to a buffer with a
    capacity and a closed flag. *)
Record chan_state (A : Type) : Type :=
  { buf : list A; cap : nat; closed : bool }.

Definition chan (A : Type) : Type := option (chan_state A).

(** [make(chan A, n)] *)
Definition make (A : Type) (n : nat) : chan A :=
  Some {| buf := []; cap := n; closed := false |}.

(** [ch <- v]: parks on a nil or full channel, panics on a closed one. *)
Definition chan_send (A : Type) (ch : chan A) (v : A) : outcome (chan A) :=
  match ch with
  | None => Blocks
  | Some c =>
      if closed c then Panics "send on closed channel"
      else if (length (buf c) <? cap c)%nat
           then Ret (Some {| buf := buf c ++ [v]; cap := cap c; closed := false |})
           else Blocks
  end.

(** [<-ch]: parks on a nil or empty open channel; a closed and drained
    channel yields the zero value, written [None]. *)
Definition chan_recv (A : Type) (ch : chan A) : outcome (option A * chan A) :=
  match ch with
  | None => Blocks
  | Some c =>
      match buf c with
      | v :: rest => Ret (Some v, Some {| buf := rest; cap := cap c; closed := closed c |})
      | [] => if closed c then Ret (None, ch) else Blocks
      end
  end.

(** [close(ch)]: panics on a nil channel and on a closed one. *)
Definition chan_close (A : Type) (ch : chan A) : outcome (chan A) :=
  match ch with
  | None => Panics "close of nil channel"
  | Some c =>
      if closed c then Panics "close of closed channel"
      else Ret (Some {| buf := buf c; cap := cap c; closed := true |})
  end.

(** The buffered values of a channel ([nil] holds none). *)
Definition queued (A : Type) (ch : chan A) : list A :=
  match ch with None => [] | Some c => buf c end.

(* ------------------------------------------------------------------ *)
(** ** The connection *)

(** [type ClientConn struct].  The mutex [mu] is not a field here: the
    code that runs between [Lock] and [Unlock] is one atomic function. *)
Record ClientConn : Type :=
  { conn : option net_Conn;
    r : option bufio_Reader;
    bodyReading : bool;
    re : option error;
    we : option error;
    reqch : chan Request.t;
    respch : chan Response.t;
    closech : chan unit;
    writeReq : writeReqFn }.

Definition set_conn_r (c : option net_Conn) (b : option bufio_Reader) (cc : ClientConn) :=
  {| conn := c; r := b; bodyReading := bodyReading cc; re := re cc; we := we cc;
     reqch := reqch cc; respch := respch cc; closech := closech cc;
     writeReq := writeReq cc |}.

Definition set_we (e : option error) (cc : ClientConn) :=
  {| conn := conn cc; r := r cc; bodyReading := bodyReading cc; re := re cc; we := e;
     reqch := reqch cc; respch := respch cc; closech := closech cc;
     writeReq := writeReq cc |}.

Definition set_reqch (ch : chan Request.t) (cc : ClientConn) :=
  {| conn := conn cc; r := r cc; bodyReading := bodyReading cc; re := re cc; we := we cc;
     reqch := ch; respch := respch cc; closech := closech cc;
     writeReq := writeReq cc |}.

Definition set_respch (ch : chan Response.t) (cc : ClientConn) :=
  {| conn := conn cc; r := r cc; bodyReading := bodyReading cc; re := re cc; we := we cc;
     reqch := reqch cc; respch := ch; closech := closech cc;
     writeReq := writeReq cc |}.

Definition set_closech (ch : chan unit) (cc : ClientConn) :=
  {| conn := conn cc; r := r cc; bodyReading := bodyReading cc; re := re cc; we := we cc;
     reqch := reqch cc; respch := respch cc; closech := ch;
     writeReq := writeReq cc |}.

Definition set_writeReq (f : writeReqFn) (cc : ClientConn) :=
  {| conn := conn cc; r := r cc; bodyReading := bodyReading cc; re := re cc; we := we cc;
     reqch := reqch cc; respch := respch cc; closech := closech cc;
     writeReq := f |}.

(** [NewClientConn]: the struct literal of lines 39-45.  [closech] is not
    listed there, so it keeps its zero value, the nil channel.  The
    [go cc.readLoop()] of line 46 is the initial loop state of [boot]. *)
Definition NewClientConn (c : option net_Conn) (r0 : option bufio_Reader) : ClientConn :=
  let r1 := match r0 with
            | None => Some (bufio_NewReader c)
            | Some b => Some b
            end in
  {| conn := c; r := r1; bodyReading := false; re := None; we := None;
     reqch := make Request.t 1; respch := make Response.t 1; closech := None;
     writeReq := Request_Write |}.

Definition NewProxyClientConn (c : option net_Conn) (r0 : option bufio_Reader) : ClientConn :=
  set_writeReq Request_WriteProxy (NewClientConn c r0).

(** [waitForBody] *)
Definition waitForBody (cc : ClientConn) : bool := bodyReading cc.

(** [Ping] *)
Definition Ping (cc : ClientConn) : option error :=
  match re cc with
  | Some e => Some e
  | None =>
      match we cc with
      | Some e => Some e
      | None =>
          match conn cc with
          | None => Some errClosed
          | Some _ => None
          end
      end
  end.

(** [setReadError] *)
Definition setReadError (err : option error) (cc : ClientConn) : ClientConn :=
  {| conn := conn cc; r := r cc; bodyReading := bodyReading cc; re := err; we := we cc;
     reqch := reqch cc; respch := respch cc; closech := closech cc;
     writeReq := writeReq cc |}.

(** [setBodyReading] *)
Definition setBodyReading (flag : bool) (cc : ClientConn) : ClientConn :=
  {| conn := conn cc; r := r cc; bodyReading := flag; re := re cc; we := we cc;
     reqch := reqch cc; respch := respch cc; closech := closech cc;
     writeReq := writeReq cc |}.

(** [Hijack]: returns [(c, r)] and the connection with both fields nil. *)
Definition Hijack (cc : ClientConn)
  : (option net_Conn * option bufio_Reader) * ClientConn :=
  ((conn cc, r cc), set_conn_r None None cc).

(* ------------------------------------------------------------------ *)
(** ** Caller-side operations that touch the transport *)

(** What the connection did to its collaborators, in order. *)
Inductive io_action : Type :=
| io_writeReq (f : writeReqFn) (req : Request.t) (c : option net_Conn) (res : option error)
    (* cc.writeReq(req, c) ran and returned res *)
| io_connClose (c : net_Conn).
    (* c.Close() ran *)

(** The connection together with the log of its outside effects. *)
Record World : Type := { cc : ClientConn; wire : list io_action }.

Definition with_cc (x : ClientConn) (w : World) : World :=
  {| cc := x; wire := wire w |}.

Definition emit (a : io_action) (w : World) : World :=
  {| cc := cc w; wire := wire w ++ [a] |}.

(** Lines 78-83 of [write]: under the lock, read [cc.conn] and, for a
    request with [Close] set, store [ErrPersistEOF] in [cc.we]. *)
Definition write_lock1 (req : Request.t) (x : ClientConn) : option net_Conn * ClientConn :=
  (conn x, if Request.Close req then set_we (Some ErrPersistEOF) x else x).

(** Line 84: [err = cc.writeReq(req, c)].  [res] is what the serializer
    returns; it cannot return success when [c] is nil, the final flush
    onto a nil writer panics. *)
Definition call_writeReq (req : Request.t) (c : option net_Conn) (res : option error)
    (w : World) : outcome (option error * World) :=
  match c, res with
  | None, None => Panics "invalid memory address or nil pointer dereference"
  | _, _ => Ret (res, emit (io_writeReq (writeReq (cc w)) req c res) w)
  end.

(** Lines 85-91: under the lock, a non-nil [err] is stored in [cc.we]. *)
Definition write_lock2 (err : error) (x : ClientConn) : ClientConn :=
  set_we (Some err) x.

(** Line 92: [cc.reqch <- req]. *)
Definition write_send (req : Request.t) (x : ClientConn) : outcome ClientConn :=
  ch <- chan_send (reqch x) req ;; Ret (set_reqch ch x).

(** [write], run without interference from other goroutines.  [wres] is
    the result of the serializer, should it be called. *)
Definition write (req : Request.t) (wres : option error) (w : World)
  : outcome (option error * World) :=
  match Ping (cc w) with
  | Some err => Ret (Some err, w)
  | None =>
      if waitForBody (cc w) then Ret (Some ErrBodyWaitingRead, w)
      else
        let (c, x1) := write_lock1 req (cc w) in
        ' (err, w2) <- call_writeReq req c wres (with_cc x1 w) ;;
        match err with
        | Some e => Ret (Some e, with_cc (write_lock2 e (cc w2)) w2)
        | None => x3 <- write_send req (cc w2) ;; Ret (None, with_cc x3 w2)
        end
  end.

(** Which case of the [select] in [read] fires.  [sel_ctxDone err]: the
    request's context is done and [ctx.Err()] is [err] (never nil once
    [Done] is closed). *)
Inductive read_sel : Type :=
| sel_respch
| sel_ctxDone (err : error).

(** [read]: returns [(resp, err)]. *)
Definition read (req : Request.t) (sel : read_sel) (x : ClientConn)
  : outcome ((option Response.t * option error) * ClientConn) :=
  match sel with
  | sel_respch =>
      ' (resp, ch) <- chan_recv (respch x) ;;
      Ret ((resp, None), set_respch ch x)
  | sel_ctxDone err =>
      Ret ((None, Some err), setReadError (Some err) x)
  end.

(** [Do] *)
Definition Do (req : Request.t) (wres : option error) (sel : read_sel) (w : World)
  : outcome ((option Response.t * option error) * World) :=
  ' (err, w1) <- write req wres w ;;
  match err with
  | Some e => Ret ((None, Some e), w1)
  | None => ' (res, x2) <- read req sel (cc w1) ;; Ret (res, with_cc x2 w1)
  end.

(** [Close].  [cres] is what the transport's own [Close] returns. *)
Definition Close (cres : option error) (w : World) : outcome (option error * World) :=
  let '((c, _), x1) := Hijack (cc w) in
  match c with
  | Some c0 => Ret (cres, emit (io_connClose c0) (with_cc x1 w))
  | None => ch <- chan_close (closech x1) ;; Ret (None, with_cc (set_closech ch x1) w)
  end.

(* ------------------------------------------------------------------ *)
(** ** The read loop *)

(** Line 161 *)
Definition hasBody (rc : Request.t) (resp : Response.t) : bool :=
  negb (Request.Method rc =? "HEAD")%string
  && negb (Response.ContentLength resp =? 0)%Z.

(** The condition of line 162 *)
Definition lastExchange (rc : Request.t) (resp : Response.t) : bool :=
  Response.Close resp || Request.Close rc || (Response.StatusCode resp <=? 199)%Z.

(** Where the loop goroutine stands.  Each state names the code it is
    about to run. *)
Inductive loop_pc : Type :=
| LHead (alive : bool)
    (* line 149-150: for alive { _, err := cc.r.Peek(1) *)
| LPeekFailed
    (* lines 152-153: cc.setReadError(ErrServerClosedConn); break *)
| LRecvReq
    (* line 155: rc := <-cc.reqch *)
| LReadResponse (rc : Request.t)
    (* line 156: resp, err := http.ReadResponse(cc.r, rc) *)
| LParseFailed (err : error)
    (* lines 158-159: cc.setReadError(err); break *)
| LJudge (rc : Request.t) (resp : Response.t)
    (* lines 161-168 *)
| LPublish (alive : bool) (resp : Response.t) (waitForBodyRead : chan bool)
    (* lines 170-182: wrap the body; cc.respch <- resp *)
| LSetBodyReading (alive : bool) (waitForBodyRead : chan bool)
    (* line 183: cc.setBodyReading(true) *)
| LSelect (alive : bool) (waitForBodyRead : chan bool)
    (* lines 184-192: select *)
| LClearBodyReading (alive : bool)
    (* line 193: cc.setBodyReading(false), then back to the loop test *)
| LStopped
    (* readLoop has returned *)
| LPeeking
    (* inside cc.r.Peek(1) of line 150: the call is made, its result awaited *)
| LParsing (rc : Request.t).
    (* inside http.ReadResponse(cc.r, rc) of line 156, likewise *)

Inductive select_case : Type :=
| case_waitForBodyRead   (* case bodyEOF := <-waitForBodyRead *)
| case_closech.          (* case <-cc.closech *)

(** What the outside world contributes to a step of the loop. *)
Inductive loop_in : Type :=
| tau
| peek_result (err : option error)           (* of cc.r.Peek(1) *)
| parse_result (res : Response.t + error)    (* of http.ReadResponse *)
| select_fires (k : select_case).

Definition nil_deref : string := "invalid memory address or nil pointer dereference".

(** One step of [readLoop].  [Blocks] also stands for an input that does
    not belong to the current state.

    [cc.r.Peek(1)] and [http.ReadResponse(cc.r, rc)] evaluate [cc.r] when
    the call is made and then wait for the transport.  A step from
    [LHead true] or [LReadResponse rc] is such a call together with its
    return, with nothing happening in between: [cc.r] is read at that
    moment.  A call that is still waiting while other goroutines run is
    made by [loop_call] below, which reads [cc.r] and parks the loop in
    [LPeeking] or [LParsing rc]; the return from there does not look at
    [cc.r] again. *)
Definition loop_step (i : loop_in) (pc : loop_pc) (x : ClientConn)
  : outcome (loop_pc * ClientConn) :=
  match pc, i with
  | LHead false, tau => Ret (LStopped, x)
  | LHead true, peek_result err =>
      match r x with
      | None => Panics nil_deref
      | Some _ =>
          match err with
          | Some _ => Ret (LPeekFailed, x)
          | None => Ret (LRecvReq, x)
          end
      end
  | LPeekFailed, tau => Ret (LStopped, setReadError (Some ErrServerClosedConn) x)
  | LRecvReq, tau =>
      ' (v, ch) <- chan_recv (reqch x) ;;
      match v with
      | Some rc => Ret (LReadResponse rc, set_reqch ch x)
      | None => Panics nil_deref   (* a nil request from a closed queue *)
      end
  | LReadResponse rc, parse_result res =>
      match r x with
      | None => Panics nil_deref
      | Some _ =>
          match res with
          | inr err => Ret (LParseFailed err, x)
          | inl resp => Ret (LJudge rc resp, x)
          end
      end
  | LParseFailed err, tau => Ret (LStopped, setReadError (Some err) x)
  | LJudge rc resp, tau =>
      let last := lastExchange rc resp in
      let alive := negb last in
      let x1 := if last then setReadError (Some ErrServerClosedConn) x else x in
      if negb (hasBody rc resp) then Ret (LHead alive, x1)
      else Ret (LPublish alive resp (make bool 2), x1)
  | LPublish alive resp wfb, tau =>
      let resp1 := Response.with_Body (bodyEOFSignal (Response.Body resp)) resp in
      ch <- chan_send (respch x) resp1 ;;
      Ret (LSetBodyReading alive wfb, set_respch ch x)
  | LSetBodyReading alive wfb, tau =>
      Ret (LSelect alive wfb, setBodyReading true x)
  | LSelect alive wfb, select_fires case_waitForBodyRead =>
      ' (v, _) <- chan_recv wfb ;;
      let bodyEOF := match v with Some b => b | None => false end in
      Ret (LClearBodyReading (alive && bodyEOF),
           if negb bodyEOF then setReadError (Some ErrBodyLeftData) x else x)
  | LSelect alive wfb, select_fires case_closech =>
      _ <- chan_recv (closech x) ;;
      Ret (LClearBodyReading false, x)
  | LClearBodyReading alive, tau => Ret (LHead alive, setBodyReading false x)
  | LPeeking, peek_result err =>
      match err with
      | Some _ => Ret (LPeekFailed, x)
      | None => Ret (LRecvReq, x)
      end
  | LParsing rc, parse_result res =>
      match res with
      | inr err => Ret (LParseFailed err, x)
      | inl resp => Ret (LJudge rc resp, x)
      end
  | _, _ => Blocks
  end.

(** The loop makes the call of line 150 or of line 156 and waits inside
    it: [cc.r] is evaluated now, and a nil reader is dereferenced as soon
    as the callee touches it. *)
Definition loop_call (pc : loop_pc) (x : ClientConn) : outcome loop_pc :=
  match pc with
  | LHead true =>
      match r x with
      | None => Panics nil_deref
      | Some _ => Ret LPeeking
      end
  | LReadResponse rc =>
      match r x with
      | None => Panics nil_deref
      | Some _ => Ret (LParsing rc)
      end
  | _ => Blocks
  end.

(** The two closures handed to the body wrapper (lines 172-179). *)
Inductive body_call : Type :=
| earlyCloseFn
| fn (err : error).

(** The value a closure sends on [waitForBodyRead]. *)
Definition body_signal (b : body_call) : bool :=
  match b with
  | earlyCloseFn => false
  | fn err => is_EOF err
  end.

(** A closure runs: it sends on the [waitForBodyRead] of the exchange
    whose response has been published. *)
Definition body_step (b : body_call) (pc : loop_pc) : outcome loop_pc :=
  match pc with
  | LSetBodyReading alive wfb =>
      ch <- chan_send wfb (body_signal b) ;; Ret (LSetBodyReading alive ch)
  | LSelect alive wfb =>
      ch <- chan_send wfb (body_signal b) ;; Ret (LSelect alive ch)
  | _ => Blocks
  end.

(* ------------------------------------------------------------------ *)
(** ** A caller inside [write] *)

(** Where a goroutine that entered [write] stands. *)
Inductive write_pc : Type :=
| WIdle
| WPing (req : Request.t)                                (* line 72 *)
| WWaitForBody (req : Request.t)                         (* line 75 *)
| WLock1 (req : Request.t)                               (* lines 78-83 *)
| WWriteReq (req : Request.t) (c : option net_Conn)      (* line 84 *)
| WLock2 (req : Request.t) (err : option error)          (* lines 85-91 *)
| WSend (req : Request.t)                                (* line 92 *)
| WReturned (err : option error).

(** One block of [write]; [wres] is consumed by the serializer call. *)
Definition write_step (wres : option error) (pc : write_pc) (w : World)
  : outcome (write_pc * World) :=
  match pc with
  | WIdle | WReturned _ => Blocks
  | WPing req =>
      match Ping (cc w) with
      | Some err => Ret (WReturned (Some err), w)
      | None => Ret (WWaitForBody req, w)
      end
  | WWaitForBody req =>
      if waitForBody (cc w) then Ret (WReturned (Some ErrBodyWaitingRead), w)
      else Ret (WLock1 req, w)
  | WLock1 req =>
      let (c, x1) := write_lock1 req (cc w) in Ret (WWriteReq req c, with_cc x1 w)
  | WWriteReq req c =>
      ' (err, w1) <- call_writeReq req c wres w ;; Ret (WLock2 req err, w1)
  | WLock2 req err =>
      match err with
      | Some e => Ret (WReturned (Some e), with_cc (write_lock2 e (cc w)) w)
      | None => Ret (WSend req, w)
      end
  | WSend req =>
      x1 <- write_send req (cc w) ;; Ret (WReturned None, with_cc x1 w)
  end.

(** [write_step] iterated while no other goroutine runs. *)
Fixpoint write_steps (n : nat) (wres : option error) (pc : write_pc) (w : World)
  : outcome (write_pc * World) :=
  match n with
  | O => Ret (pc, w)
  | S k =>
      match pc with
      | WIdle | WReturned _ => Ret (pc, w)
      | _ => ' (pc1, w1) <- write_step wres pc w ;; write_steps k wres pc1 w1
      end
  end.

(* ------------------------------------------------------------------ *)
(** ** The whole system *)

(** The connection, its effects, the loop goroutine, one caller that may
    be inside [write], and whether the process died of a panic. *)
Record System : Type :=
  { world : World;
    lp : loop_pc;
    wp : write_pc;
    crashed : option string }.

Inductive event : Type :=
| EvLoop (i : loop_in)             (* the read loop runs one step *)
| EvBody (b : body_call)           (* the published body reports its outcome *)
| EvCallWrite (req : Request.t)    (* a caller enters write(req) *)
| EvWrite (wres : option error)    (* the caller inside write runs one block *)
| EvRead (req : Request.t) (sel : read_sel)
| EvHijack
| EvClose (cres : option error)
| EvLoopCall.                      (* the read loop enters Peek or ReadResponse *)

Definition sys_cc (s : System) : ClientConn := cc (world s).

Definition crash (msg : string) (s : System) : System :=
  {| world := world s; lp := lp s; wp := wp s; crashed := Some msg |}.

(** The transition function: [None] when the event cannot happen in [s]. *)
Definition sys_step (ev : event) (s : System) : option System :=
  match crashed s with
  | Some _ => None
  | None =>
      match ev with
      | EvLoop i =>
          match loop_step i (lp s) (sys_cc s) with
          | Ret (pc, x) =>
              Some {| world := with_cc x (world s); lp := pc; wp := wp s; crashed := None |}
          | Blocks => None
          | Panics msg => Some (crash msg s)
          end
      | EvBody b =>
          match body_step b (lp s) with
          | Ret pc => Some {| world := world s; lp := pc; wp := wp s; crashed := None |}
          | Blocks => None
          | Panics msg => Some (crash msg s)
          end
      | EvCallWrite req =>
          match wp s with
          | WIdle | WReturned _ =>
              Some {| world := world s; lp := lp s; wp := WPing req; crashed := None |}
          | _ => None
          end
      | EvWrite wres =>
          match write_step wres (wp s) (world s) with
          | Ret (pc, w) => Some {| world := w; lp := lp s; wp := pc; crashed := None |}
          | Blocks => None
          | Panics msg => Some (crash msg s)
          end
      | EvRead req sel =>
          match read req sel (sys_cc s) with
          | Ret (_, x) =>
              Some {| world := with_cc x (world s); lp := lp s; wp := wp s; crashed := None |}
          | Blocks => None
          | Panics msg => Some (crash msg s)
          end
      | EvHijack =>
          Some {| world := with_cc (snd (Hijack (sys_cc s))) (world s);
                  lp := lp s; wp := wp s; crashed := None |}
      | EvClose cres =>
          match Close cres (world s) with
          | Ret (_, w) => Some {| world := w; lp := lp s; wp := wp s; crashed := None |}
          | Blocks => None
          | Panics msg => Some (crash msg s)
          end
      | EvLoopCall =>
          match loop_call (lp s) (sys_cc s) with
          | Ret pc => Some {| world := world s; lp := pc; wp := wp s; crashed := None |}
          | Blocks => None
          | Panics msg => Some (crash msg s)
          end
      end
  end.

(** A run: the events of a list, in order. *)
Fixpoint run (t : list event) (s : System) : option System :=
  match t with
  | [] => Some s
  | ev :: t' =>
      match sys_step ev s with
      | Some s1 => run t' s1
      | None => None
      end
  end.

(** The system right after [NewClientConn(c, r0)] returned: the loop
    goroutine stands at its first [for alive] test with [alive = true]. *)
Definition boot (c : option net_Conn) (r0 : option bufio_Reader) : System :=
  {| world := {| cc := NewClientConn c r0; wire := [] |};
     lp := LHead true; wp := WIdle; crashed := None |}.

(** The same for [NewProxyClientConn]. *)
Definition boot_proxy (c : option net_Conn) (r0 : option bufio_Reader) : System :=
  {| world := {| cc := NewProxyClientConn c r0; wire := [] |};
     lp := LHead true; wp := WIdle; crashed := None |}.

Definition reachable (s : System) : Prop :=
  exists c r0 t, run t (boot c r0) = Some s \/ run t (boot_proxy c r0) = Some s.

(** The system around an arbitrary world, both goroutines at rest. *)
Definition at_rest (w : World) (pc : loop_pc) : System :=
  {| world := w; lp := pc; wp := WIdle; crashed := None |}.

(* ------------------------------------------------------------------ *)
(** ** Observations and scenarios *)

(** What [Ping] returns after the events [t] ran from [s]; no value when
    [t] cannot run. *)
Definition Ping_after (t : list event) (s : System) : option (option error) :=
  option_map (fun s' => Ping (sys_cc s')) (run t s).

Definition re_after (t : list event) (s : System) : option (option error) :=
  option_map (fun s' => re (sys_cc s')) (run t s).

Definition we_after (t : list event) (s : System) : option (option error) :=
  option_map (fun s' => we (sys_cc s')) (run t s).

Definition conn_after (t : list event) (s : System) : option (option net_Conn) :=
  option_map (fun s' => conn (sys_cc s')) (run t s).

Definition lp_after (t : list event) (s : System) : option loop_pc :=
  option_map lp (run t s).

(** A connection over transport 7 with no reader supplied. *)
Definition sys0 : System := boot (Some 7%nat) None.

Definition get_a : Request.t := Request.mk "GET" "/a" false.
Definition get_a_close : Request.t := Request.mk "GET" "/a" true.
Definition head_a_close : Request.t := Request.mk "HEAD" "/a" true.

(** 200 with a five-byte body, and the same announcing closure. *)
Definition resp_hello : Response.t := Response.mk 200 5 false (wire_body 0).
Definition resp_hello_close : Response.t := Response.mk 200 5 true (wire_body 0).

(** A caller runs all six blocks of a [write] whose serializer succeeds. *)
Definition call_write (req : Request.t) : list event :=
  EvCallWrite req :: repeat (EvWrite None) 6.

(** The loop probes the transport, pulls the request, parses [resp] and
    runs lines 161-168. *)
Definition serve (resp : Response.t) : list event :=
  [EvLoop (peek_result None); EvLoop tau; EvLoop (parse_result (inl resp)); EvLoop tau].

(** The loop publishes the response and sets the body flag. *)
Definition publish : list event := [EvLoop tau; EvLoop tau].

(** The transport reaches end of stream: the probe fails and the loop
    records it. *)
Definition server_hangs_up : list event :=
  [EvLoop (peek_result (Some io_EOF)); EvLoop tau].

(** The state the events [t] lead to from [s] ([s] itself when they
    cannot run). *)
Definition state_after (t : list event) (s : System) : System :=
  match run t s with
  | Some s' => s'
  | None => s
  end.

(** A request with [Close] set has been written. *)
Definition sys_close_sent : System := state_after (call_write get_a_close) sys0.

(** ... and the loop has handled the response to it up to line 168. *)
Definition sys_close_served : System := state_after (serve resp_hello) sys_close_sent.

(** ... and the caller has read the body to its end; the loop is done. *)
Definition sys_close_drained : System :=
  state_after (publish ++ [EvBody (fn io_EOF); EvLoop (select_fires case_waitForBodyRead);
                           EvLoop tau; EvLoop tau]) sys_close_served.

(** The caller of a [Close] request stands before the serializer call. *)
Definition sys_close_at_writeReq : System :=
  state_after (EvCallWrite get_a_close :: repeat (EvWrite None) 3) sys0.

(** ... has finished its write, and the loop has handled the response. *)
Definition sys_close_finished : System :=
  state_after (repeat (EvWrite None) 3 ++ serve resp_hello) sys_close_at_writeReq.

(** A response with a body has been published and flagged, its body is
    still unread. *)
Definition sys_body_pending : System :=
  state_after (call_write get_a ++ serve resp_hello ++ publish) sys0.

(** A request has been written and no response has come. *)
Definition sys_awaiting : System := state_after (call_write get_a) sys0.

(** ... the read for it was cancelled. *)
Definition sys_read_cancelled : System :=
  state_after [EvRead get_a (sel_ctxDone (ext "context canceled"))] sys_awaiting.

(** ... and then the server hung up. *)
Definition sys_cancelled_hung_up : System :=
  state_after server_hangs_up sys_read_cancelled.

(** The fresh connection, hijacked. *)
Definition sys_hijacked : System := state_after [EvHijack] sys0.

(** ... then a caller entered [write], ran its liveness check, and the
    connection was hijacked once more. *)
Definition sys_hijacked_again : System :=
  state_after [EvCallWrite get_a; EvWrite None; EvHijack] sys_hijacked.

(** A response with status code 099, a body, and no closure announced. *)
Definition resp_099 : Response.t := Response.mk 99 5 false (wire_body 0).

(** The loop is waiting inside its first probe when the connection is
    hijacked. *)
Definition sys_parked_hijacked : System := state_after [EvLoopCall; EvHijack] sys0.

(** [marked pc]: the loop's [alive] variable is false, or the loop has
    left (or is leaving through a [break]) its [for]. *)
Definition marked (pc : loop_pc) : bool :=
  match pc with
  | LHead alive | LPublish alive _ _ | LSetBodyReading alive _
  | LSelect alive _ | LClearBodyReading alive => negb alive
  | LPeekFailed | LParseFailed _ | LStopped => true
  | LRecvReq | LReadResponse _ | LJudge _ _ | LPeeking | LParsing _ => false
  end.

(** A status code of the informational class 1xx. *)
Definition is_1xx (code : Z) : bool := (code / 100 =? 1)%Z.

(* ------------------------------------------------------------------ *)
(** ** Shapes of states *)

(** A queue made by [make(chan A, 1)]: open, and at most one value in it. *)
Definition single_slot (A : Type) (ch : chan A) : Prop :=
  exists q, ch = Some q /\ cap q = 1%nat /\ closed q = false /\
            (length (buf q) <= 1)%nat.

(** A response whose body is a [bodyEOFSignal]. *)
Definition wrapped (resp : Response.t) : bool :=
  match Response.Body resp with
  | bodyEOFSignal _ => true
  | wire_body _ => false
  end.

(** The loop is inside lines 184-193: it waits in the [select] or is
    about to clear the body flag. *)
Definition draining (pc : loop_pc) : bool :=
  match pc with
  | LSelect _ _ | LClearBodyReading _ => true
  | _ => false
  end.

(** The loop's [alive] is false, or [readLoop] has returned. *)
Definition alive_cleared (pc : loop_pc) : bool :=
  match pc with
  | LHead alive | LPublish alive _ _ | LSetBodyReading alive _
  | LSelect alive _ | LClearBodyReading alive => negb alive
  | LStopped => true
  | LPeekFailed | LParseFailed _ | LRecvReq | LReadResponse _ | LJudge _ _
  | LPeeking | LParsing _ => false
  end.

(** The loop is about to make a call on [cc.r]. *)
Definition about_to_call (pc : loop_pc) : bool :=
  match pc with
  | LHead true | LReadResponse _ => true
  | _ => false
  end.

(** The loop waits inside a call it has made on the reader. *)
Definition inside_call (pc : loop_pc) : bool :=
  match pc with
  | LPeeking | LParsing _ => true
  | _ => false
  end.

(** How often the log records a [Close] of the transport. *)
Definition is_connClose (a : io_action) : bool :=
  match a with
  | io_connClose _ => true
  | io_writeReq _ _ _ _ => false
  end.

Definition conn_closes (log : list io_action) : nat :=
  length (filter is_connClose log).

(** An effect a connection made for transport [c] with serializer [f] may
    have: a serializer call through [f] onto [c] or onto nil, or a
    [Close] of [c]. *)
Definition effect_of (f : writeReqFn) (c : option net_Conn) (a : io_action) : Prop :=
  match a with
  | io_writeReq g _ c' _ => g = f /\ (c' = c \/ c' = None)
  | io_connClose c' => c = Some c'
  end.

(** The transport a caller inside [write] holds in its local [c]. *)
Definition held_conn (pc : write_pc) : option (option net_Conn) :=
  match pc with
  | WWriteReq _ c => Some c
  | _ => None
  end.

(** A connection between exchanges: live, both queues empty, no body
    pending, the loop at its test with [alive] true, no caller inside
    [write]. *)
Definition idle (s : System) : Prop :=
  Ping (sys_cc s) = None /\
  r (sys_cc s) <> None /\
  bodyReading (sys_cc s) = false /\
  reqch (sys_cc s) = make Request.t 1 /\
  respch (sys_cc s) = make Response.t 1 /\
  lp s = LHead true /\
  (wp s = WIdle \/ exists res, wp s = WReturned res) /\
  crashed s = None.

(** One complete exchange, seen from the caller and the loop: the write,
    the loop up to the flagged publication, then the read, the body read
    to [io.EOF], and the loop back at its test. *)
Definition exchange_up_to_publication (req : Request.t) (resp : Response.t) : list event :=
  call_write req ++ serve resp ++ publish.

Definition exchange_drain (req : Request.t) : list event :=
  [EvRead req sel_respch; EvBody (fn io_EOF);
   EvLoop (select_fires case_waitForBodyRead); EvLoop tau].

(** What every state of a running connection looks like. *)
Record shape (s : System) : Prop :=
  { shape_reqch : single_slot (reqch (sys_cc s));
    shape_respch : single_slot (respch (sys_cc s));
    shape_wrapped : forallb wrapped (queued (respch (sys_cc s))) = true;
    shape_closech : closech (sys_cc s) = None;
    shape_flag : bodyReading (sys_cc s) = true -> draining (lp s) = true;
    shape_cleared : alive_cleared (lp s) = true -> re (sys_cc s) <> None }.

(** What the effect log of a connection made for transport [c] with
    serializer [f] looks like. *)
Record tidy (f : writeReqFn) (c : option net_Conn) (s : System) : Prop :=
  { tidy_writeReq : writeReq (sys_cc s) = f;
    tidy_conn : conn (sys_cc s) = c \/ conn (sys_cc s) = None;
    tidy_held : forall c', held_conn (wp s) = Some c' -> c' = c \/ c' = None;
    tidy_effects : Forall (effect_of f c) (wire (world s));
    tidy_closes : (conn_closes (wire (world s)) <= 1)%nat;
    tidy_attached : conn (sys_cc s) <> None -> conn_closes (wire (world s)) = 0%nat }.

(** The fresh connection after the server hung up and the loop ended. *)
Definition sys_hung_up : System := state_after server_hangs_up sys0.

(** The fresh connection closed by its owner. *)
Definition sys_closed : System := state_after [EvClose None] sys0.

(** A second request was written before the loop pulled the first: its
    caller stands at the send on the full queue. *)
Definition sys_second_write_parked : System :=
  state_after (EvCallWrite get_a :: repeat (EvWrite None) 5) sys_awaiting.

(** One complete exchange on the fresh connection. *)
Definition sys_after_exchange : System :=
  state_after (exchange_up_to_publication get_a resp_hello ++ exchange_drain get_a) sys0.

(** One complete exchange, and several in a row. *)
Definition exchange (p : Request.t * Response.t) : list event :=
  exchange_up_to_publication (fst p) (snd p) ++ exchange_drain (fst p).

Definition exchanges (l : list (Request.t * Response.t)) : list event :=
  flat_map exchange l.

(** The response carries a body and the exchange is not the last one. *)
Definition keeps_alive (p : Request.t * Response.t) : Prop :=
  hasBody (fst p) (snd p) = true /\ lastExchange (fst p) (snd p) = false.

(** The serializer call a successful write of [req] logs on [x]. *)
Definition sent (x : ClientConn) (p : Request.t * Response.t) : io_action :=
  io_writeReq (writeReq x) (fst p) (conn x) None.

Definition get_b : Request.t := Request.mk "GET" "/b" false.

(** Two exchanges in a row on the fresh connection. *)
Definition sys_after_two_exchanges : System :=
  state_after (exchanges [(get_a, resp_hello); (get_b, resp_hello)]) sys0.

(** A request was written, then the probe failed: the loop is leaving. *)
Definition sys_probe_failed : System :=
  state_after (call_write get_a ++ [EvLoop (peek_result (Some io_EOF))]) sys0.

(** ... it has left, and the read for the request was cancelled. *)
Definition sys_left_behind : System :=
  state_after [EvLoop tau; EvRead get_a (sel_ctxDone (ext "context canceled"))]
    sys_probe_failed.

(* ================================================================== *)
(** * Properties *)

(** Case analysis on whatever a hypothesis or the goal branches on. *)
Ltac scrutinee_of x k :=
  lazymatch x with
  | context [match ?y with _ => _ end] => scrutinee_of y k
  | _ => k x
  end.

Ltac break_hyp H :=
  repeat match type of H with
         | context [match ?x with _ => _ end] =>
             scrutinee_of x
               ltac:(fun y => let E := fresh "E" in
                              destruct y eqn:E; simpl in H; try discriminate H)
         end.

Ltac inv H := inversion H; subst; clear H.

(** Closed facts about the scenarios, by evaluation. *)
Ltac evaluate := vm_compute; first [reflexivity | discriminate | intro; discriminate].

(* ------------------------------------------------------------------ *)
(** ** What never comes back: the decay order on connections *)

(** [decays x y]: whatever made [x] unusable still holds of [y], and a
    nil teardown channel is still nil. *)
Record decays (x y : ClientConn) : Prop :=
  { decays_re : re x <> None -> re y <> None;
    decays_we : we x <> None -> we y <> None;
    decays_conn : conn x = None -> conn y = None;
    decays_closech : closech x = None -> closech y = None }.

Lemma decays_refl x : decays x x.
Proof. constructor; auto. Qed.

Lemma decays_trans x y z : decays x y -> decays y z -> decays x z.
Proof. intros [a b c d] [a' b' c' d']; constructor; auto. Qed.

Lemma Ping_fails_iff x :
  Ping x <> None <-> re x <> None \/ we x <> None \/ conn x = None.
Proof.
  unfold Ping. destruct (re x), (we x), (conn x); split; intros H;
    try congruence; auto; try (right; left; congruence); try (left; congruence).
  destruct H as [H | [H | H]]; congruence.
Qed.

Lemma decays_Ping x y : decays x y -> Ping x <> None -> Ping y <> None.
Proof.
  intros [a b c d] H. apply Ping_fails_iff in H. apply Ping_fails_iff.
  destruct H as [H | [H | H]]; auto.
Qed.

(** [Ping] reports the read error if there is one, else the write error,
    else [errClosed] for a detached transport. *)
Lemma Ping_value x :
  Ping x = match re x, we x, conn x with
           | Some e, _, _ => Some e
           | None, Some e, _ => Some e
           | None, None, None => Some errClosed
           | None, None, Some _ => None
           end.
Proof. unfold Ping. destruct (re x), (we x), (conn x); reflexivity. Qed.

Lemma loop_step_decays i pc x pc' x' :
  loop_step i pc x = Ret (pc', x') -> decays x x'.
Proof.
  intros H. unfold loop_step in H.
  destruct pc; destruct i; simpl in H; try discriminate H; break_hyp H;
    unfold bind in H; break_hyp H; inv H;
    constructor; simpl; auto; congruence.
Qed.

Lemma read_decays req sel x res x' :
  read req sel x = Ret (res, x') -> decays x x'.
Proof.
  intros H. unfold read in H. destruct sel; simpl in H.
  - unfold bind in H. break_hyp H. inv H. constructor; simpl; auto.
  - inv H. constructor; simpl; auto; congruence.
Qed.

Lemma Hijack_decays x : decays x (snd (Hijack x)).
Proof. constructor; simpl; auto. Qed.

Lemma Close_decays cres w res w' :
  Close cres w = Ret (res, w') -> decays (cc w) (cc w').
Proof.
  intros H. unfold Close in H. simpl in H. destruct (conn (cc w)); simpl in H.
  - inv H. constructor; simpl; auto.
  - unfold chan_close in H. destruct (closech (cc w)) eqn:Ec; simpl in H; try discriminate H.
    break_hyp H. inv H. constructor; simpl; auto; congruence.
Qed.

Lemma write_step_decays wres pc w pc' w' :
  write_step wres pc w = Ret (pc', w') -> decays (cc w) (cc w').
Proof.
  intros H. destruct pc; simpl in H; try discriminate H.
  - break_hyp H; inv H; apply decays_refl.
  - break_hyp H; inv H; apply decays_refl.
  - inv H. destruct (Request.Close req); simpl; [|apply decays_refl].
    constructor; simpl; auto; congruence.
  - unfold call_writeReq in H. destruct c, wres; simpl in H; try discriminate H;
      inv H; apply decays_refl.
  - destruct err; inv H; [|apply decays_refl].
    constructor; simpl; auto; congruence.
  - unfold write_send, bind in H. break_hyp H. inv H. constructor; simpl; auto.
Qed.

(** Every transition of the system only lets the connection decay. *)
Lemma sys_step_decays ev s s' :
  sys_step ev s = Some s' -> decays (sys_cc s) (sys_cc s').
Proof.
  unfold sys_step, sys_cc. intros H.
  destruct (crashed s); try discriminate H.
  destruct ev.
  - destruct (loop_step i (lp s) (cc (world s))) as [[pc x]| |msg] eqn:E; inv H; simpl.
    + eapply loop_step_decays; eauto.
    + apply decays_refl.
  - destruct (body_step b (lp s)); inv H; apply decays_refl.
  - destruct (wp s); inv H; apply decays_refl.
  - destruct (write_step wres (wp s) (world s)) as [[pc w]| |msg] eqn:E; inv H; simpl.
    + eapply write_step_decays; eauto.
    + apply decays_refl.
  - destruct (read req sel (cc (world s))) as [[res x]| |msg] eqn:E; inv H; simpl.
    + eapply read_decays; eauto.
    + apply decays_refl.
  - inv H. simpl. apply (Hijack_decays (cc (world s))).
  - destruct (Close cres (world s)) as [[res w]| |msg] eqn:E; inv H; simpl.
    + eapply Close_decays; eauto.
    + apply decays_refl.
  - destruct (loop_call (lp s) (cc (world s))); inv H; apply decays_refl.
Qed.

Lemma run_decays t : forall s s',
  run t s = Some s' -> decays (sys_cc s) (sys_cc s').
Proof.
  induction t as [|ev t IH]; simpl; intros s s' H.
  - inv H. apply decays_refl.
  - destruct (sys_step ev s) as [s1|] eqn:E; try discriminate H.
    eapply decays_trans; [eapply sys_step_decays; eauto | eauto].
Qed.

(* ------------------------------------------------------------------ *)
(** ** [write] and its blocks *)

(** The sequential [write] is the six blocks of [write_step] run back to
    back. *)
Lemma write_as_steps req wres w :
  write req wres w =
  ' (pc, w') <- write_steps 6 wres (WPing req) w ;;
  match pc with
  | WReturned res => Ret (res, w')
  | _ => Blocks
  end.
Proof.
  unfold write. simpl.
  destruct (Ping (cc w)); simpl; [reflexivity|].
  destruct (waitForBody (cc w)); simpl; [reflexivity|].
  unfold call_writeReq.
  destruct (conn (cc w)), wres, (Request.Close req); simpl; try reflexivity;
    unfold write_send; simpl;
    destruct (chan_send (reqch (cc w)) req); reflexivity.
Qed.

(** A [write] that gets past both checks returns exactly when the
    serializer's verdict and the queue allow it. *)
Lemma write_past_checks req wres w :
  Ping (cc w) = None -> waitForBody (cc w) = false ->
  write req wres w =
  let x1 := snd (write_lock1 req (cc w)) in
  let w1 := emit (io_writeReq (writeReq (cc w)) req (conn (cc w)) wres) (with_cc x1 w) in
  match wres with
  | Some e => Ret (Some e, with_cc (write_lock2 e x1) w1)
  | None => x3 <- write_send req x1 ;; Ret (None, with_cc x3 w1)
  end.
Proof.
  intros HP HB. unfold write. rewrite HP, HB. simpl.
  assert (Hc : conn (cc w) <> None).
  { unfold Ping in HP. destruct (re (cc w)), (we (cc w)), (conn (cc w)); congruence. }
  unfold call_writeReq. destruct (conn (cc w)) as [c|]; [|congruence].
  destruct wres; simpl; destruct (Request.Close req); reflexivity.
Qed.

(* ------------------------------------------------------------------ *)
(** ** C1: sticky errors *)

(** C1, as stated, fails: the error [Ping] returns can change after a
    sticky error was set.  A caller writes a request that has [Close] set:
    [cc.we] becomes [ErrPersistEOF] and [Ping] returns it.  The read loop
    then handles the response to that very request, and because the
    request signalled closure it stores [ErrServerClosedConn] in [cc.re]
    (line 164); from then on [Ping] returns [ErrServerClosedConn]. *)
Lemma C1_counterexample :
  we_after (call_write get_a_close) sys0 = Some (Some ErrPersistEOF) /\
  Ping_after (call_write get_a_close) sys0 = Some (Some ErrPersistEOF) /\
  Ping_after (call_write get_a_close ++ serve resp_hello) sys0
    = Some (Some ErrServerClosedConn).
Proof. repeat split; reflexivity. Qed.

(** C1, amended: along every run of the system a read error that is set
    stays set, a write error that is set stays set, and once either is set
    every later [Ping] fails, returning the read error recorded at that
    time if there is one and the recorded write error otherwise. *)
Theorem C1_sticky_errors_stay_set t s s' :
  run t s = Some s' ->
  (re (sys_cc s) <> None -> re (sys_cc s') <> None) /\
  (we (sys_cc s) <> None -> we (sys_cc s') <> None) /\
  (re (sys_cc s) <> None \/ we (sys_cc s) <> None ->
   exists e, Ping (sys_cc s') = Some e /\
             (re (sys_cc s') = Some e \/
              (re (sys_cc s') = None /\ we (sys_cc s') = Some e))).
Proof.
  intros Hrun. apply run_decays in Hrun. destruct Hrun as [Hre Hwe _ _].
  repeat split; auto.
  intros [H | H].
  - apply Hre in H. rewrite Ping_value.
    destruct (re (sys_cc s')) as [e|]; [|congruence]. exists e; auto.
  - apply Hwe in H. rewrite Ping_value.
    destruct (re (sys_cc s')) as [e|]; [exists e; auto|].
    destruct (we (sys_cc s')) as [e|]; [|congruence]. exists e; auto.
Qed.

(** The amended C1 at work: the write error of a [Close] request stays
    set while the loop handles the response, and [Ping] keeps failing. *)
Lemma C1_witness :
  run (serve resp_hello) sys_close_sent = Some sys_close_served /\
  we (sys_cc sys_close_sent) <> None /\
  we (sys_cc sys_close_served) <> None /\
  exists e, Ping (sys_cc sys_close_served) = Some e /\
            (re (sys_cc sys_close_served) = Some e \/
             (re (sys_cc sys_close_served) = None /\
              we (sys_cc sys_close_served) = Some e)).
Proof.
  assert (Hrun : run (serve resp_hello) sys_close_sent = Some sys_close_served)
    by evaluate.
  assert (Hwe : we (sys_cc sys_close_sent) <> None) by evaluate.
  destruct (C1_sticky_errors_stay_set _ _ Hrun) as (_ & H1 & H2).
  split; [exact Hrun|]. split; [exact Hwe|].
  split; [exact (H1 Hwe) | exact (H2 (or_intror Hwe))].
Defined.

(* ------------------------------------------------------------------ *)
(** ** C2: [Close] after the transport was detached *)

(** No code assigns [cc.closech]: it is nil in every reachable state. *)
Lemma reachable_closech_nil s : reachable s -> closech (sys_cc s) = None.
Proof.
  intros (c & r0 & t & [H | H]); apply run_decays in H;
    apply (decays_closech H); reflexivity.
Qed.

(** [Close] on a detached connection with a nil teardown channel panics
    at [close(cc.closech)]. *)
Lemma Close_detached_nil_closech cres w :
  conn (cc w) = None -> closech (cc w) = None ->
  Close cres w = Panics "close of nil channel".
Proof. intros Hc Hch. unfold Close. simpl. rewrite Hc. simpl. rewrite Hch. reflexivity. Qed.

(** So does it in every state the program can reach once the transport
    is detached. *)
Lemma Close_detached_reachable cres s :
  reachable s -> conn (sys_cc s) = None ->
  Close cres (world s) = Panics "close of nil channel".
Proof.
  intros Hr Hc. apply Close_detached_nil_closech; auto.
  apply (reachable_closech_nil Hr).
Qed.

(** C2 fails on the code: for a connection built by [NewClientConn] (or
    [NewProxyClientConn]) and then hijacked, [Close] does not return nil;
    it panics closing the nil [closech], and the process is gone after
    [Hijack; Close]. *)
Theorem C2_Close_after_Hijack_panics
    (c : option net_Conn) (r0 : option bufio_Reader) (cres : option error)
    (log : list io_action) :
  Close cres {| cc := snd (Hijack (NewClientConn c r0)); wire := log |}
    = Panics "close of nil channel" /\
  Close cres {| cc := snd (Hijack (NewProxyClientConn c r0)); wire := log |}
    = Panics "close of nil channel" /\
  option_map crashed (run [EvHijack; EvClose cres] (boot c r0))
    = Some (Some "close of nil channel").
Proof. repeat split; reflexivity. Qed.

(* ------------------------------------------------------------------ *)
(** ** C3: a write while a body is pending *)

(** C3: when [Ping] passes and [bodyReading] is true, [write] returns
    [ErrBodyWaitingRead] and leaves the connection and the effect log as
    they were: nothing is serialized and nothing is queued.  The same
    holds block by block for a caller inside [write]. *)
Theorem C3_write_rejects_pending_body req wres w :
  Ping (cc w) = None -> bodyReading (cc w) = true ->
  write req wres w = Ret (Some ErrBodyWaitingRead, w) /\
  write_steps 6 wres (WPing req) w = Ret (WReturned (Some ErrBodyWaitingRead), w).
Proof.
  intros HP HB. split.
  - unfold write, waitForBody. rewrite HP, HB. reflexivity.
  - simpl. rewrite HP. simpl. unfold waitForBody. rewrite HB. reflexivity.
Qed.

(** C3 on a reachable state: a response was published and flagged, its
    body is unread, and a second write is attempted. *)
Lemma C3_witness :
  run (call_write get_a ++ serve resp_hello ++ publish) sys0 = Some sys_body_pending /\
  Ping (sys_cc sys_body_pending) = None /\
  bodyReading (sys_cc sys_body_pending) = true /\
  write get_a None (world sys_body_pending)
    = Ret (Some ErrBodyWaitingRead, world sys_body_pending) /\
  write_steps 6 None (WPing get_a) (world sys_body_pending)
    = Ret (WReturned (Some ErrBodyWaitingRead), world sys_body_pending).
Proof.
  assert (HP : Ping (cc (world sys_body_pending)) = None) by evaluate.
  assert (HB : bodyReading (cc (world sys_body_pending)) = true) by evaluate.
  split; [evaluate|]. split; [exact HP|]. split; [exact HB|].
  exact (C3_write_rejects_pending_body get_a None (world sys_body_pending) HP HB).
Defined.

(* ------------------------------------------------------------------ *)
(** ** C4: responses without a body *)

Lemma hasBody_false_iff rc resp :
  hasBody rc resp = false <->
  Request.Method rc = "HEAD" \/ Response.ContentLength resp = 0%Z.
Proof.
  unfold hasBody.
  destruct (String.eqb_spec (Request.Method rc) "HEAD") as [Hm | Hm];
    destruct (Z.eqb_spec (Response.ContentLength resp) 0) as [Hl | Hl]; simpl;
    split; auto; intros H; try discriminate H.
  destruct H; contradiction.
Qed.

(** C4, as stated, fails: after a bodiless exchange the loop does not
    always go on to the next probe.  For a HEAD request with [Close] set
    line 163 clears [alive], the [continue] of line 167 reaches the loop
    test with [alive = false], and [readLoop] returns: its next step is
    to stop, and no probe can follow. *)
Lemma C4_counterexample :
  hasBody head_a_close resp_hello = false /\
  lp_after (call_write head_a_close ++ serve resp_hello) sys0 = Some (LHead false) /\
  lp_after (call_write head_a_close ++ serve resp_hello ++ [EvLoop tau]) sys0
    = Some LStopped /\
  (forall e, run (call_write head_a_close ++ serve resp_hello
                    ++ [EvLoop (peek_result e)]) sys0 = None).
Proof. repeat split; reflexivity. Qed.

(** C4, amended: no body is expected exactly when the request's method is
    HEAD or the response declares content length zero.  In that case lines
    161-168 leave the response queue and the body flag untouched and take
    the loop straight back to its [for alive] test, with [alive] false iff
    the exchange was judged last; otherwise they hand the response on for
    publication.  At the test the loop stops when [alive] is false, and
    when it is true the only thing it can do is probe the transport. *)
Theorem C4_bodiless_response_not_published rc resp x :
  (hasBody rc resp = false <->
   Request.Method rc = "HEAD" \/ Response.ContentLength resp = 0%Z) /\
  (hasBody rc resp = false ->
   exists x',
     loop_step tau (LJudge rc resp) x = Ret (LHead (negb (lastExchange rc resp)), x') /\
     respch x' = respch x /\ bodyReading x' = bodyReading x) /\
  (hasBody rc resp = true ->
   exists x',
     loop_step tau (LJudge rc resp) x
       = Ret (LPublish (negb (lastExchange rc resp)) resp (make bool 2), x') /\
     respch x' = respch x) /\
  (forall y, loop_step tau (LHead false) y = Ret (LStopped, y)) /\
  (forall i y, loop_step i (LHead true) y <> Blocks -> exists e, i = peek_result e) /\
  (forall e y, r y <> None ->
     loop_step (peek_result e) (LHead true) y
       = Ret (match e with Some _ => LPeekFailed | None => LRecvReq end, y)).
Proof.
  split; [apply hasBody_false_iff|].
  split; [|split; [|split; [|split]]].
  - intros H. simpl. rewrite H. simpl.
    destruct (lastExchange rc resp); eexists; split; try reflexivity; auto.
  - intros H. simpl. rewrite H. simpl.
    destruct (lastExchange rc resp); eexists; split; try reflexivity; auto.
  - reflexivity.
  - intros i y H. destruct i; simpl in H; try congruence. eauto.
  - intros e y H. simpl. destruct (r y); [|congruence]. destruct e; reflexivity.
Qed.

(** The amended C4 on a HEAD request with [Close] set. *)
Lemma C4_witness :
  hasBody head_a_close resp_hello = false /\
  exists x',
    loop_step tau (LJudge head_a_close resp_hello) (NewClientConn (Some 7%nat) None)
      = Ret (LHead (negb (lastExchange head_a_close resp_hello)), x') /\
    respch x' = respch (NewClientConn (Some 7%nat) None) /\
    bodyReading x' = bodyReading (NewClientConn (Some 7%nat) None).
Proof.
  split; [reflexivity|].
  apply (C4_bodiless_response_not_published head_a_close resp_hello
           (NewClientConn (Some 7%nat) None)).
  reflexivity.
Defined.

(* ------------------------------------------------------------------ *)
(** ** C5: a body that was not read to its end *)

(** The closures report [false] for an early close and for any terminal
    condition other than [io.EOF]. *)
Lemma body_signal_false b :
  body_signal b = false <-> b = earlyCloseFn \/ exists err, b = fn err /\ err <> io_EOF.
Proof.
  destruct b as [|err]; simpl.
  - split; auto.
  - unfold is_EOF. destruct (error_eq_dec err io_EOF) as [E | E]; split; intros H.
    + discriminate H.
    + destruct H as [H | (e & H & Hne)]; [discriminate H | inv H; congruence].
    + right; eauto.
    + reflexivity.
Qed.

(** C5, as stated, fails: a read error set by the last-exchange test is
    overwritten.  The response announces closure, so line 164 stores
    [ErrServerClosedConn]; the caller then closes the body early, the
    loop receives [false] and line 188 stores [ErrBodyLeftData] over it. *)
Lemma C5_counterexample :
  re_after (call_write get_a ++ serve resp_hello_close ++ publish) sys0
    = Some (Some ErrServerClosedConn) /\
  re_after (call_write get_a ++ serve resp_hello_close ++ publish
              ++ [EvBody earlyCloseFn; EvLoop (select_fires case_waitForBodyRead)]) sys0
    = Some (Some ErrBodyLeftData).
Proof. split; reflexivity. Qed.

(** C5, amended: when the [select] receives [false] from
    [waitForBodyRead], the loop clears [alive] and stores
    [ErrBodyLeftData] in [cc.re] whatever [cc.re] held before; it then
    clears the body flag, reaches the loop test and stops. *)
Theorem C5_unfinished_body_kills_connection alive wfb rest x :
  chan_recv wfb = Ret (Some false, rest) ->
  let x1 := setReadError (Some ErrBodyLeftData) x in
  let x2 := setBodyReading false x1 in
  loop_step (select_fires case_waitForBodyRead) (LSelect alive wfb) x
    = Ret (LClearBodyReading false, x1) /\
  loop_step tau (LClearBodyReading false) x1 = Ret (LHead false, x2) /\
  loop_step tau (LHead false) x2 = Ret (LStopped, x2) /\
  re x2 = Some ErrBodyLeftData /\ bodyReading x2 = false.
Proof.
  intros H. simpl. rewrite H. simpl.
  rewrite andb_false_r. repeat split; reflexivity.
Qed.

(** The amended C5 on a connection whose read error was already set by
    line 164. *)
Lemma C5_witness :
  let x := setBodyReading true (setReadError (Some ErrServerClosedConn)
                                  (NewClientConn (Some 7%nat) None)) in
  let wfb := Some {| buf := [false]; cap := 2; closed := false |} in
  chan_recv wfb = Ret (Some false, Some {| buf := []; cap := 2; closed := false |}) /\
  re x = Some ErrServerClosedConn /\
  loop_step (select_fires case_waitForBodyRead) (LSelect false wfb) x
    = Ret (LClearBodyReading false, setReadError (Some ErrBodyLeftData) x).
Proof.
  split; [reflexivity|]. split; [reflexivity|].
  apply (@C5_unfinished_body_kills_connection false
           (Some {| buf := [false]; cap := 2; closed := false |})
           (Some {| buf := []; cap := 2; closed := false |})).
  reflexivity.
Defined.

(* ------------------------------------------------------------------ *)
(** ** C6: a cancelled read *)

(** C6, as stated, fails: the cancellation error does not stay the
    result of [Ping].  A read is cancelled while the loop still waits for
    the server; [Ping] returns the cancellation error.  The server then
    hangs up, the probe fails, line 152 stores [ErrServerClosedConn] in
    [cc.re], and [Ping] returns that instead. *)
Lemma C6_counterexample :
  Ping_after (call_write get_a ++ [EvRead get_a (sel_ctxDone (ext "context canceled"))])
    sys0 = Some (Some (ext "context canceled")) /\
  Ping_after (call_write get_a ++ [EvRead get_a (sel_ctxDone (ext "context canceled"))]
                ++ server_hangs_up)
    sys0 = Some (Some ErrServerClosedConn).
Proof. split; reflexivity. Qed.

(** C6, amended: when the cancellation case of the [select] fires, [read]
    returns no response and the context's error, and has stored that error
    in [cc.re]; a [Ping] on the resulting connection returns it, and in
    every state the system reaches afterwards [Ping] fails (with the read
    error recorded at that time).  With an open, empty response queue the
    cancellation case is the only one that can fire. *)
Theorem C6_cancelled_read_poisons_connection req err x :
  read req (sel_ctxDone err) x = Ret ((None, Some err), setReadError (Some err) x) /\
  re (setReadError (Some err) x) = Some err /\
  Ping (setReadError (Some err) x) = Some err /\
  (forall s t s',
     sys_cc s = setReadError (Some err) x -> run t s = Some s' ->
     exists e, Ping (sys_cc s') = Some e /\ re (sys_cc s') = Some e) /\
  (forall q, respch x = Some q -> buf q = [] -> closed q = false ->
     read req sel_respch x = Blocks).
Proof.
  repeat split.
  - intros s t s' Hs Hrun. apply run_decays in Hrun.
    assert (H : re (sys_cc s') <> None).
    { apply (decays_re Hrun). rewrite Hs. discriminate. }
    rewrite Ping_value. destruct (re (sys_cc s')) as [e|]; [eauto | congruence].
  - intros q Hq Hb Hc. unfold read, chan_recv. rewrite Hq, Hb, Hc. reflexivity.
Qed.

(** The amended C6 on the run of the counterexample: [Ping] still fails
    after the server hung up. *)
Lemma C6_witness :
  sys_cc sys_read_cancelled
    = setReadError (Some (ext "context canceled")) (sys_cc sys_awaiting) /\
  run server_hangs_up sys_read_cancelled = Some sys_cancelled_hung_up /\
  exists e, Ping (sys_cc sys_cancelled_hung_up) = Some e /\
            re (sys_cc sys_cancelled_hung_up) = Some e.
Proof.
  assert (Hs : sys_cc sys_read_cancelled
               = setReadError (Some (ext "context canceled")) (sys_cc sys_awaiting))
    by evaluate.
  assert (Hrun : run server_hangs_up sys_read_cancelled = Some sys_cancelled_hung_up)
    by evaluate.
  destruct (C6_cancelled_read_poisons_connection get_a (ext "context canceled")
              (sys_cc sys_awaiting)) as (_ & _ & _ & H & _).
  split; [exact Hs|]. split; [exact Hrun|].
  exact (H _ _ _ Hs Hrun).
Defined.

(* ------------------------------------------------------------------ *)
(** ** C7: a request that closes the connection *)

(** C7: for a request with [Close] set that gets past both checks, the
    caller reaches the serializer call with [cc.we] already equal to
    [ErrPersistEOF]; the write itself goes on (the serializer runs, and
    [write] returns its error, or on success hands the request to the
    loop); and in every state the system reaches from the moment [cc.we]
    was set, any [write] returns the error of [Ping] and changes nothing. *)
Theorem C7_close_request_sets_write_error req wres w :
  Ping (cc w) = None -> bodyReading (cc w) = false -> Request.Close req = true ->
  let x1 := set_we (Some ErrPersistEOF) (cc w) in
  let w1 := emit (io_writeReq (writeReq (cc w)) req (conn (cc w)) wres) (with_cc x1 w) in
  write_steps 3 wres (WPing req) w = Ret (WWriteReq req (conn (cc w)), with_cc x1 w) /\
  write_step wres (WWriteReq req (conn (cc w))) (with_cc x1 w) = Ret (WLock2 req wres, w1) /\
  write req wres w =
    match wres with
    | Some e => Ret (Some e, with_cc (set_we (Some e) x1) w1)
    | None => x3 <- write_send req x1 ;; Ret (None, with_cc x3 w1)
    end /\
  (forall s t s' req2 wres2,
     sys_cc s = x1 -> run t s = Some s' ->
     exists e, Ping (sys_cc s') = Some e /\
               write req2 wres2 (world s') = Ret (Some e, world s')).
Proof.
  intros HP HB HC. simpl.
  assert (Hc : exists c, conn (cc w) = Some c).
  { unfold Ping in HP. destruct (re (cc w)), (we (cc w)), (conn (cc w)); try congruence; eauto. }
  destruct Hc as [c Hc].
  split; [|split; [|split]].
  - rewrite HP. simpl. unfold waitForBody. rewrite HB. simpl.
    unfold write_lock1. rewrite HC. reflexivity.
  - unfold call_writeReq. rewrite Hc. simpl. destruct wres; reflexivity.
  - rewrite write_past_checks by assumption.
    unfold write_lock1, write_lock2. rewrite HC. simpl. reflexivity.
  - intros s t s' req2 wres2 Hs Hrun. apply run_decays in Hrun.
    assert (H : Ping (sys_cc s') <> None).
    { apply Ping_fails_iff. right; left. apply (decays_we Hrun). rewrite Hs. discriminate. }
    unfold write. fold (sys_cc s'). destruct (Ping (sys_cc s')) as [e|]; [eauto | congruence].
Qed.

(** C7 on a fresh connection: the caller stands before the serializer
    with [cc.we] set, and after the exchange a further write fails. *)
Lemma C7_witness :
  Ping (sys_cc sys0) = None /\ bodyReading (sys_cc sys0) = false /\
  Request.Close get_a_close = true /\
  write_steps 3 None (WPing get_a_close) (world sys0)
    = Ret (WWriteReq get_a_close (conn (sys_cc sys0)),
           with_cc (set_we (Some ErrPersistEOF) (sys_cc sys0)) (world sys0)) /\
  sys_cc sys_close_at_writeReq = set_we (Some ErrPersistEOF) (sys_cc sys0) /\
  run (repeat (EvWrite None) 3 ++ serve resp_hello) sys_close_at_writeReq
    = Some sys_close_finished /\
  exists e, Ping (sys_cc sys_close_finished) = Some e /\
            write get_a None (world sys_close_finished)
              = Ret (Some e, world sys_close_finished).
Proof.
  assert (HP : Ping (cc (world sys0)) = None) by evaluate.
  assert (HB : bodyReading (cc (world sys0)) = false) by evaluate.
  assert (HC : Request.Close get_a_close = true) by evaluate.
  assert (Hs : sys_cc sys_close_at_writeReq = set_we (Some ErrPersistEOF) (cc (world sys0)))
    by evaluate.
  assert (Hrun : run (repeat (EvWrite None) 3 ++ serve resp_hello) sys_close_at_writeReq
                 = Some sys_close_finished) by evaluate.
  destruct (@C7_close_request_sets_write_error get_a_close None (world sys0) HP HB HC)
    as (H3 & _ & _ & Hlater).
  split; [exact HP|]. split; [exact HB|]. split; [exact HC|].
  split; [exact H3|]. split; [exact Hs|]. split; [exact Hrun|].
  exact (Hlater _ _ _ get_a None Hs Hrun).
Defined.

(* ------------------------------------------------------------------ *)
(** ** C8: the last usable exchange *)

(** Once [alive] is cleared the loop never starts another iteration. *)
Lemma marked_loop_step i pc x pc' x' :
  marked pc = true -> loop_step i pc x = Ret (pc', x') -> marked pc' = true.
Proof.
  intros Hm H. destruct pc; simpl in Hm; try discriminate Hm;
    try (apply negb_true_iff in Hm; subst alive);
    destruct i; simpl in H; try discriminate H;
    unfold bind in H; break_hyp H; inv H; reflexivity.
Qed.

Lemma marked_body_step b pc pc' :
  marked pc = true -> body_step b pc = Ret pc' -> marked pc' = true.
Proof.
  intros Hm H. destruct pc; simpl in H; try discriminate H;
    unfold bind in H; break_hyp H; inv H; exact Hm.
Qed.

Lemma marked_sys_step ev s s' :
  marked (lp s) = true -> sys_step ev s = Some s' -> marked (lp s') = true.
Proof.
  unfold sys_step. intros Hm H. destruct (crashed s); try discriminate H.
  destruct ev.
  - destruct (loop_step i (lp s) (sys_cc s)) as [[pc x]| |msg] eqn:E; inv H; simpl; auto.
    eapply marked_loop_step; eauto.
  - destruct (body_step b (lp s)) eqn:E; inv H; simpl; auto.
    eapply marked_body_step; eauto.
  - destruct (wp s); inv H; auto.
  - destruct (write_step wres (wp s) (world s)) as [[pc w]| |msg]; inv H; auto.
  - destruct (read req sel (sys_cc s)) as [[res x]| |msg]; inv H; auto.
  - inv H. auto.
  - destruct (Close cres (world s)) as [[res w]| |msg]; inv H; auto.
  - destruct (loop_call (lp s) (sys_cc s)) as [pc| |msg] eqn:E; inv H; simpl; auto.
    destruct (lp s) as [[|]| | | | | | | | | | | |]; simpl in E, Hm;
      try discriminate E; discriminate Hm.
Qed.

Lemma marked_run t : forall s s',
  marked (lp s) = true -> run t s = Some s' -> marked (lp s') = true.
Proof.
  induction t as [|ev t IH]; simpl; intros s s' Hm H.
  - inv H. exact Hm.
  - destruct (sys_step ev s) as [s1|] eqn:E; try discriminate H.
    eapply IH; [eapply marked_sys_step; eauto | exact H].
Qed.

(** A marked loop cannot probe the transport. *)
Lemma marked_no_probe e pc x :
  marked pc = true -> loop_step (peek_result e) pc x = Blocks.
Proof. destruct pc as [[|]| | | | | | | | | | | |]; simpl; intros H; try reflexivity; discriminate H. Qed.

(** For the status codes HTTP assigns to a class (100 and above), the
    test of line 162 singles out the informational class 1xx. *)
Lemma status_le_199_is_1xx code :
  (100 <= code)%Z -> (code <=? 199)%Z = is_1xx code.
Proof.
  intros H. unfold is_1xx.
  pose proof (Z.div_mod code 100 ltac:(lia)) as Hdm.
  pose proof (Z.mod_pos_bound code 100 ltac:(lia)) as Hmod.
  destruct (Z.leb_spec code 199) as [Hle | Hgt]; symmetry.
  - apply Z.eqb_eq. lia.
  - apply Z.eqb_neq. lia.
Qed.

(** C8, as stated, fails: a status code below 100 is judged like an
    informational one.  The parser accepts the status line 099; neither
    the response nor the request asks for closure and 099 is not a 1xx
    code, yet [99 <= 199], so line 163 clears [alive] and line 164 stores
    [ErrServerClosedConn]. *)
Lemma C8_counterexample :
  Response.Close resp_099 = false /\ Request.Close get_a = false /\
  is_1xx (Response.StatusCode resp_099) = false /\
  lp_after (call_write get_a ++ serve resp_099) sys0
    = Some (LPublish false resp_099 (make bool 2)) /\
  re_after (call_write get_a ++ serve resp_099) sys0 = Some (Some ErrServerClosedConn).
Proof. repeat split; reflexivity. Qed.

(** C8, amended: in every iteration lines 161-168 judge the exchange the
    last one, that is clear [alive], exactly when the response has [Close]
    set, or the request has [Close] set, or the status code is at most
    199; in that case the loop is marked (whatever happens next, it never
    starts another iteration) and [ErrServerClosedConn] is stored in
    [cc.re]; otherwise [alive] stays true and the connection is left as
    it was. *)
Theorem C8_last_exchange_at_most_199 rc resp x :
  exists pc x',
    loop_step tau (LJudge rc resp) x = Ret (pc, x') /\
    (marked pc = true <->
     Response.Close resp = true \/ Request.Close rc = true \/
     (Response.StatusCode resp <= 199)%Z) /\
    (marked pc = true ->
     x' = setReadError (Some ErrServerClosedConn) x /\
     re x' = Some ErrServerClosedConn /\
     forall s t s', lp s = pc -> run t s = Some s' -> marked (lp s') = true) /\
    (marked pc = false -> x' = x).
Proof.
  assert (Hl : lastExchange rc resp = true <->
               Response.Close resp = true \/ Request.Close rc = true \/
               (Response.StatusCode resp <= 199)%Z).
  { unfold lastExchange. rewrite !orb_true_iff, Z.leb_le. tauto. }
  assert (Hrun : forall pc, marked pc = true ->
            forall s t s', lp s = pc -> run t s = Some s' -> marked (lp s') = true).
  { intros pc Hm s t s' Hs Hr. apply (marked_run t s); [rewrite Hs; exact Hm | exact Hr]. }
  cbn -[lastExchange hasBody].
  destruct (lastExchange rc resp) eqn:El; destruct (hasBody rc resp) eqn:Eh;
    cbn -[lastExchange hasBody]; eexists; eexists; (split; [reflexivity|]); simpl.
  - split; [split; [intros _; apply Hl; reflexivity | reflexivity]|].
    split; [intros _; repeat split; apply Hrun; reflexivity | discriminate].
  - split; [split; [intros _; apply Hl; reflexivity | reflexivity]|].
    split; [intros _; repeat split; apply Hrun; reflexivity | discriminate].
  - split; [split; [discriminate | intros H; apply Hl in H; discriminate H]|].
    split; [discriminate | reflexivity].
  - split; [split; [discriminate | intros H; apply Hl in H; discriminate H]|].
    split; [discriminate | reflexivity].
Qed.

(** The amended C8 on a request with [Close] set whose response has a
    body: the loop is marked, the read error is set, and the loop stops
    once the body is drained. *)
Lemma C8_witness :
  loop_step tau (LJudge get_a_close resp_hello) (sys_cc sys_close_sent)
    = Ret (LPublish false resp_hello (make bool 2),
           setReadError (Some ErrServerClosedConn) (sys_cc sys_close_sent)) /\
  lp sys_close_served = LPublish false resp_hello (make bool 2) /\
  run (publish ++ [EvBody (fn io_EOF); EvLoop (select_fires case_waitForBodyRead);
                   EvLoop tau; EvLoop tau]) sys_close_served = Some sys_close_drained /\
  marked (lp sys_close_drained) = true.
Proof.
  assert (Hlp : lp sys_close_served = LPublish false resp_hello (make bool 2)) by evaluate.
  assert (Hrun : run (publish ++ [EvBody (fn io_EOF);
                                  EvLoop (select_fires case_waitForBodyRead);
                                  EvLoop tau; EvLoop tau]) sys_close_served
                 = Some sys_close_drained) by evaluate.
  destruct (C8_last_exchange_at_most_199 get_a_close resp_hello (sys_cc sys_close_sent))
    as (pc & x' & Hstep & _ & Hlast & _).
  assert (Hpc : pc = LPublish false resp_hello (make bool 2)).
  { vm_compute in Hstep. inversion Hstep. reflexivity. }
  assert (Hm : marked pc = true) by (rewrite Hpc; reflexivity).
  destruct (Hlast Hm) as (_ & _ & Hstays).
  split; [evaluate|]. split; [exact Hlp|]. split; [exact Hrun|].
  clear Hstep Hlast. rewrite <- Hpc in Hlp.
  exact (Hstays _ _ _ Hlp Hrun).
Defined.

(* ------------------------------------------------------------------ *)
(** ** C9: detaching the transport *)

(** C9, as stated, fails: after detachment [Ping] need not return the
    closed error.  The server hangs up, the loop records
    [ErrServerClosedConn]; the caller then hijacks the connection, the
    transport field is nil, and [Ping] still returns
    [ErrServerClosedConn], not [errClosed]. *)
Lemma C9_counterexample :
  conn_after (server_hangs_up ++ [EvHijack]) sys0 = Some None /\
  Ping_after (server_hangs_up ++ [EvHijack]) sys0 = Some (Some ErrServerClosedConn).
Proof. split; reflexivity. Qed.

(** C9, amended: the first [Hijack] returns the transport and the
    buffered reader and leaves both fields nil; a second [Hijack] returns
    two nils and changes nothing; and in every state the system reaches
    after a detachment the transport field is still nil and [Ping] fails,
    returning the read error if one is recorded, else the write error if
    one is recorded, else [errClosed]. *)
Theorem C9_Hijack_twice x :
  let x1 := snd (Hijack x) in
  fst (Hijack x) = (conn x, r x) /\
  conn x1 = None /\ r x1 = None /\
  Hijack x1 = ((None, None), x1) /\
  (forall s t s',
     sys_cc s = x1 -> run t s = Some s' ->
     conn (sys_cc s') = None /\
     Ping (sys_cc s') = match re (sys_cc s'), we (sys_cc s') with
                        | Some e, _ => Some e
                        | None, Some e => Some e
                        | None, None => Some errClosed
                        end).
Proof.
  simpl. do 4 (split; [reflexivity|]).
  intros s t s' Hs Hrun. apply run_decays in Hrun.
  assert (Hc : conn (sys_cc s') = None).
  { apply (decays_conn Hrun). rewrite Hs. reflexivity. }
  split; [exact Hc|].
  rewrite Ping_value, Hc.
  destruct (re (sys_cc s')), (we (sys_cc s')); reflexivity.
Qed.

(** The amended C9 on a fresh connection hijacked twice. *)
Lemma C9_witness :
  sys_cc sys_hijacked = snd (Hijack (sys_cc sys0)) /\
  run [EvCallWrite get_a; EvWrite None; EvHijack] sys_hijacked = Some sys_hijacked_again /\
  conn (sys_cc sys_hijacked_again) = None /\
  Ping (sys_cc sys_hijacked_again) = Some errClosed.
Proof.
  assert (Hs : sys_cc sys_hijacked = snd (Hijack (sys_cc sys0))) by evaluate.
  assert (Hrun : run [EvCallWrite get_a; EvWrite None; EvHijack] sys_hijacked
                 = Some sys_hijacked_again) by evaluate.
  destruct (C9_Hijack_twice (sys_cc sys0)) as (_ & _ & _ & _ & H).
  split; [exact Hs|]. split; [exact Hrun|].
  destruct (H _ _ _ Hs Hrun) as [Hc HP].
  split; [exact Hc|]. rewrite HP. evaluate.
Defined.

(* ------------------------------------------------------------------ *)
(** ** C10: a failed serialization queues nothing *)

Lemma chan_send_queued (A : Type) (ch ch' : chan A) (v : A) :
  chan_send ch v = Ret ch' -> queued ch' = queued ch ++ [v].
Proof.
  unfold chan_send. destruct ch as [c|]; [|discriminate].
  destruct (closed c); [discriminate|].
  destruct (length (buf c) <? cap c)%nat; [|discriminate].
  intros H. inv H. reflexivity.
Qed.

(** C10: when [write] gets past both checks and the serializer fails with
    [e], [write] returns [e] with [e] stored in [cc.we] and the request
    queue as it was; whenever [write] returns an error the request queue
    is unchanged; and whenever it returns nil the request has been
    appended to the queue. *)
Theorem C10_failed_write_queues_nothing req w :
  (forall e, Ping (cc w) = None -> bodyReading (cc w) = false ->
     exists w', write req (Some e) w = Ret (Some e, w') /\
                we (cc w') = Some e /\ reqch (cc w') = reqch (cc w)) /\
  (forall wres e w', write req wres w = Ret (Some e, w') ->
     reqch (cc w') = reqch (cc w)) /\
  (forall wres w', write req wres w = Ret (None, w') ->
     wres = None /\
     queued (reqch (cc w')) = queued (reqch (cc w)) ++ [req]).
Proof.
  split; [|split].
  - intros e HP HB. rewrite write_past_checks by assumption.
    eexists. split; [reflexivity|]. simpl.
    split; [reflexivity|]. unfold write_lock1. simpl.
    destruct (Request.Close req); reflexivity.
  - intros wres e w' H. unfold write in H.
    destruct (Ping (cc w)); [inv H; reflexivity|].
    destruct (waitForBody (cc w)); [inv H; reflexivity|].
    unfold write_lock1, call_writeReq in H.
    destruct (conn (cc w)), wres; simpl in H; try discriminate H.
    + inv H. simpl. destruct (Request.Close req); reflexivity.
    + unfold write_send, bind in H. break_hyp H; discriminate H.
    + inv H. simpl. destruct (Request.Close req); reflexivity.
  - intros wres w' H. unfold write in H.
    destruct (Ping (cc w)); [discriminate H|].
    destruct (waitForBody (cc w)); [discriminate H|].
    unfold write_lock1, call_writeReq in H.
    destruct (conn (cc w)), wres; simpl in H; try discriminate H.
    split; [reflexivity|].
    unfold write_send in H. simpl in H.
    destruct (chan_send (reqch (if Request.Close req
                                then set_we (Some ErrPersistEOF) (cc w) else cc w)) req)
      as [ch| |msg] eqn:E; simpl in H; try discriminate H.
    inv H. simpl. apply chan_send_queued in E. rewrite E.
    destruct (Request.Close req); reflexivity.
Qed.

(** C10 on a fresh connection whose transport breaks during the write. *)
Lemma C10_witness :
  Ping (sys_cc sys0) = None /\ bodyReading (sys_cc sys0) = false /\
  exists w', write get_a (Some (ext "broken pipe")) (world sys0)
               = Ret (Some (ext "broken pipe"), w') /\
             we (cc w') = Some (ext "broken pipe") /\
             reqch (cc w') = reqch (sys_cc sys0).
Proof.
  split; [reflexivity|]. split; [reflexivity|].
  destruct (C10_failed_write_queues_nothing get_a (world sys0)) as (H & _ & _).
  apply (H (ext "broken pipe")); reflexivity.
Defined.

(* ================================================================== *)
(** * Further properties of the code *)

(** Induction over the runs of the system. *)
Lemma run_preserves (P : System -> Prop) :
  (forall ev s s', P s -> sys_step ev s = Some s' -> P s') ->
  forall t s s', P s -> run t s = Some s' -> P s'.
Proof.
  intros Hstep t. induction t as [|ev t IH]; simpl; intros s s' HP H.
  - inv H. exact HP.
  - destruct (sys_step ev s) as [s1|] eqn:E; [|discriminate H].
    eapply IH; [eapply Hstep; eauto | exact H].
Qed.

Lemma reachable_preserves (P : System -> Prop) :
  (forall c r0, P (boot c r0)) -> (forall c r0, P (boot_proxy c r0)) ->
  (forall ev s s', P s -> sys_step ev s = Some s' -> P s') ->
  forall s, reachable s -> P s.
Proof.
  intros Hb Hp Hstep s (c & r0 & t & [H | H]).
  - eapply run_preserves with (s := boot c r0); [exact Hstep | apply Hb | exact H].
  - eapply run_preserves with (s := boot_proxy c r0); [exact Hstep | apply Hp | exact H].
Qed.

(** A step of the system, taken apart: the state before is a literal
    record and every branch of the transition function is a case. *)
Ltac open_state s :=
  let x := fresh "x" in let log := fresh "log" in
  let pc := fresh "pc" in let wpc := fresh "wpc" in let cr := fresh "cr" in
  destruct s as [[x log] pc wpc cr]; destruct x; simpl in *.

Ltac step_cases H :=
  unfold sys_step, sys_cc in H; simpl in H;
  match type of H with
  | match ?cr with _ => _ end = _ => destruct cr; [discriminate H|]
  end;
  match type of H with
  | match ?ev with _ => _ end = _ => destruct ev
  end.

(* ------------------------------------------------------------------ *)
(** ** The two queues *)

Lemma single_slot_make (A : Type) : single_slot (make A 1).
Proof. eexists. repeat split; simpl; auto. Qed.

Lemma single_slot_recv (A : Type) (ch ch' : chan A) v :
  single_slot ch -> chan_recv ch = Ret (v, ch') ->
  single_slot ch' /\ queued ch' = [] /\ exists a, v = Some a /\ queued ch = [a].
Proof.
  intros (q & Hq & Hcap & Hcl & Hlen) H. subst ch. unfold chan_recv in H.
  destruct (buf q) as [|a rest] eqn:Eb.
  - rewrite Hcl in H. discriminate H.
  - inv H. simpl in Hlen. destruct rest; [|simpl in Hlen; lia].
    split; [|split].
    + eexists. repeat split; simpl; auto.
    + reflexivity.
    + exists a. simpl. rewrite Eb. auto.
Qed.

Lemma single_slot_send (A : Type) (ch ch' : chan A) v :
  single_slot ch -> chan_send ch v = Ret ch' ->
  single_slot ch' /\ queued ch = [] /\ queued ch' = [v].
Proof.
  intros (q & Hq & Hcap & Hcl & Hlen) H. subst ch. unfold chan_send in H.
  rewrite Hcl, Hcap in H.
  destruct (buf q) as [|a rest] eqn:Eb; simpl in H.
  - inv H. split; [|split]; try reflexivity.
    + eexists. repeat split; simpl; auto.
    + simpl. exact Eb.
  - destruct rest; simpl in H; discriminate H.
Qed.

(* ------------------------------------------------------------------ *)
(** ** The shape of reachable states *)

Lemma shape_boot c r0 : shape (boot c r0).
Proof.
  constructor; simpl; try apply single_slot_make; auto; discriminate.
Qed.

Lemma shape_boot_proxy c r0 : shape (boot_proxy c r0).
Proof.
  constructor; simpl; try apply single_slot_make; auto; discriminate.
Qed.

Lemma shape_step ev s s' : shape s -> sys_step ev s = Some s' -> shape s'.
Proof.
  intros [Hq Hp Hw Hc Hf Ha] H. open_state s. step_cases H.
  - (* the loop *)
    destruct pc; destruct i; simpl in H; try discriminate H;
      unfold bind in H; break_hyp H; inv H;
      constructor; simpl; auto; try discriminate; try congruence.
    + eapply single_slot_recv; eauto.
    + eapply single_slot_send; eauto.
    + destruct (single_slot_send _ Hp E) as (_ & _ & Hqa). rewrite Hqa. reflexivity.
    + apply negb_false_iff in E3. subst b. rewrite andb_true_r. exact Ha.
  - (* a closure of the body *)
    destruct (body_step b pc) as [pc'| |msg] eqn:E; inv H;
      [|constructor; simpl; auto].
    destruct pc; simpl in E; try discriminate E;
      unfold bind in E; break_hyp E; inv E; constructor; simpl; auto.
  - (* a caller enters write *)
    destruct wpc; inv H; constructor; simpl; auto.
  - (* a block of write *)
    destruct wpc; simpl in H; try discriminate H;
      unfold write_lock1, call_writeReq, write_send, bind in H; simpl in H;
      break_hyp H; inv H; constructor; simpl; auto.
    eapply single_slot_send; eauto.
  - (* read *)
    destruct sel; simpl in H; unfold bind in H; break_hyp H; inv H;
      constructor; simpl; auto; try discriminate.
    + eapply single_slot_recv; eauto.
    + destruct (single_slot_recv Hp E) as (_ & Hqa & _). rewrite Hqa. reflexivity.
  - (* Hijack *)
    inv H. constructor; simpl; auto.
  - (* Close *)
    subst closech0. unfold Close, chan_close, bind in H. simpl in H.
    destruct conn0; simpl in H; injection H as <-; constructor; simpl; auto.
  - (* the loop makes a call on the reader *)
    unfold loop_call in H. destruct pc; simpl in H; try discriminate H;
      break_hyp H; injection H as <-; constructor; simpl; auto;
      try discriminate; try congruence.
Qed.

Lemma reachable_shape s : reachable s -> shape s.
Proof.
  apply reachable_preserves;
    [apply shape_boot | apply shape_boot_proxy | apply shape_step].
Qed.

(* ------------------------------------------------------------------ *)
(** ** The effect log *)

Lemma conn_closes_app log a :
  conn_closes (log ++ [a]) = (conn_closes log + (if is_connClose a then 1 else 0))%nat.
Proof.
  unfold conn_closes. rewrite filter_app, length_app. simpl.
  destruct (is_connClose a); reflexivity.
Qed.

Lemma Forall_snoc (A : Type) (P : A -> Prop) l a :
  Forall P l -> P a -> Forall P (l ++ [a]).
Proof. intros Hl Ha. apply Forall_app. split; [exact Hl | constructor; auto]. Qed.

Lemma tidy_boot c r0 : tidy Request_Write c (boot c r0).
Proof. constructor; simpl; auto. discriminate. Qed.

Lemma tidy_boot_proxy c r0 : tidy Request_WriteProxy c (boot_proxy c r0).
Proof. constructor; simpl; auto. discriminate. Qed.

Lemma tidy_step f c ev s s' : tidy f c s -> sys_step ev s = Some s' -> tidy f c s'.
Proof.
  intros [Hf Hc Hh He Hn Ha] H. open_state s. step_cases H.
  - destruct pc; destruct i; simpl in H; try discriminate H;
      unfold bind in H; break_hyp H; inv H; constructor; simpl; auto.
  - destruct (body_step b pc) as [pc'| |msg] eqn:E; inv H; constructor; simpl; auto.
  - destruct wpc; inv H; constructor; simpl; auto; discriminate.
  - destruct wpc; simpl in H; try discriminate H;
      unfold write_lock1, call_writeReq, write_send, bind in H; simpl in H;
      break_hyp H; inv H; constructor; simpl; auto; try discriminate;
      try (intros c' Hc'; inv Hc'; auto);
      try (apply Forall_snoc; [assumption | simpl; split; auto]);
      try (rewrite conn_closes_app; simpl; rewrite Nat.add_0_r; auto).
  - destruct sel; simpl in H; unfold bind in H; break_hyp H; inv H;
      constructor; simpl; auto.
  - inv H. constructor; simpl; auto; congruence.
  - unfold Close, chan_close, bind in H. simpl in H.
    destruct conn0 as [c0|]; simpl in H.
    + injection H as <-. constructor; simpl; auto.
      * apply Forall_snoc; [assumption|]. simpl.
        destruct Hc as [Hc | Hc]; [auto | discriminate Hc].
      * rewrite conn_closes_app. simpl. rewrite Ha; [lia | discriminate].
      * congruence.
    + break_hyp H; injection H as <-; constructor; simpl; auto; congruence.
  - unfold loop_call in H. destruct pc; simpl in H; try discriminate H;
      break_hyp H; injection H as <-; constructor; simpl; auto.
Qed.

Lemma run_app_eq t1 : forall t2 s,
  run (t1 ++ t2) s = match run t1 s with Some s1 => run t2 s1 | None => None end.
Proof.
  induction t1 as [|ev t1 IH]; simpl; intros; auto.
  destruct (sys_step ev s); auto.
Qed.

Lemma reachable_run t s s' : reachable s -> run t s = Some s' -> reachable s'.
Proof.
  intros (c & r0 & t0 & [H | H]) Hrun; exists c, r0, (t0 ++ t);
    [left | right]; rewrite run_app_eq, H; exact Hrun.
Qed.

Lemma reachable_sys0 : reachable sys0.
Proof. exists (Some 7%nat), None, []. left. reflexivity. Qed.

Lemma reachable_body_pending : reachable sys_body_pending.
Proof. apply (reachable_run (call_write get_a ++ serve resp_hello ++ publish) reachable_sys0). evaluate. Qed.

(* ------------------------------------------------------------------ *)
(** ** The hand-off queues *)

(** X1: in every reachable state the request queue and the response
    queue are open channels of capacity one that hold at most one value. *)
Theorem reachable_queues_single_slot s :
  reachable s ->
  single_slot (reqch (sys_cc s)) /\ single_slot (respch (sys_cc s)).
Proof. intros H. apply reachable_shape in H. destruct H; auto. Qed.

Lemma reachable_queues_single_slot_witness :
  reachable sys_body_pending /\
  single_slot (reqch (sys_cc sys_body_pending)) /\
  single_slot (respch (sys_cc sys_body_pending)).
Proof.
  split; [exact reachable_body_pending|].
  exact (reachable_queues_single_slot reachable_body_pending).
Defined.

(** X2: whenever [read] returns from the response case of its [select],
    it returns a non-nil response whose body is a [bodyEOFSignal] and a
    nil error, and leaves the response queue empty. *)
Theorem read_returns_wrapped_response s req res x' :
  reachable s ->
  read req sel_respch (sys_cc s) = Ret (res, x') ->
  exists resp, res = (Some resp, None) /\ wrapped resp = true /\
               queued (respch (sys_cc s)) = [resp] /\ queued (respch x') = [].
Proof.
  intros Hr H. apply reachable_shape in Hr. destruct Hr as [_ Hp Hw _ _ _].
  unfold read, bind in H.
  destruct (chan_recv (respch (sys_cc s))) as [[v ch]| |] eqn:E; try discriminate H.
  inv H. destruct (single_slot_recv Hp E) as (_ & Hempty & resp & -> & Hq).
  exists resp. rewrite Hq in Hw. simpl in Hw. rewrite andb_true_r in Hw. auto.
Qed.

Lemma read_returns_wrapped_response_witness :
  reachable sys_body_pending /\
  exists res x',
    read get_a sel_respch (sys_cc sys_body_pending) = Ret (res, x') /\
    exists resp, res = (Some resp, None) /\ wrapped resp = true /\
                 queued (respch (sys_cc sys_body_pending)) = [resp] /\
                 queued (respch x') = [].
Proof.
  split; [exact reachable_body_pending|].
  destruct (read get_a sel_respch (sys_cc sys_body_pending)) as [[res x']| |] eqn:E;
    try (vm_compute in E; discriminate E).
  exists res, x'. split; [reflexivity|].
  exact (read_returns_wrapped_response get_a reachable_body_pending E).
Defined.

(* ------------------------------------------------------------------ *)
(** ** The body flag, the end of the loop, the teardown channel *)

(** X3: the body flag is true only while the read loop stands between
    line 183 and line 193, that is in its [select] or about to clear the
    flag. *)
Theorem body_flag_only_while_draining s :
  reachable s -> bodyReading (sys_cc s) = true -> draining (lp s) = true.
Proof. intros H. apply reachable_shape in H. destruct H; auto. Qed.

Lemma body_flag_only_while_draining_witness :
  reachable sys_body_pending /\ bodyReading (sys_cc sys_body_pending) = true /\
  draining (lp sys_body_pending) = true.
Proof.
  assert (Hb : bodyReading (sys_cc sys_body_pending) = true) by evaluate.
  split; [exact reachable_body_pending|]. split; [exact Hb|].
  exact (body_flag_only_while_draining reachable_body_pending Hb).
Defined.

Lemma reachable_close_drained : reachable sys_close_drained.
Proof.
  apply (reachable_run
           (call_write get_a_close ++ serve resp_hello ++ publish
              ++ [EvBody (fn io_EOF); EvLoop (select_fires case_waitForBodyRead);
                  EvLoop tau; EvLoop tau]) reachable_sys0).
  evaluate.
Qed.

(** X4: once the loop's [alive] is false, and in particular once
    [readLoop] has returned, a read error is recorded and [Ping] returns
    it: the loop never ends leaving a connection that still looks live. *)
Theorem ended_loop_means_dead_connection s :
  reachable s -> alive_cleared (lp s) = true ->
  exists e, re (sys_cc s) = Some e /\ Ping (sys_cc s) = Some e.
Proof.
  intros H Ha. apply reachable_shape in H. destruct H as [_ _ _ _ _ Hre].
  specialize (Hre Ha). rewrite Ping_value.
  destruct (re (sys_cc s)) as [e|]; [eauto | congruence].
Qed.

Lemma ended_loop_means_dead_connection_witness :
  reachable sys_close_drained /\ lp sys_close_drained = LStopped /\
  exists e, re (sys_cc sys_close_drained) = Some e /\
            Ping (sys_cc sys_close_drained) = Some e.
Proof.
  assert (Hl : lp sys_close_drained = LStopped) by evaluate.
  assert (Ha : alive_cleared (lp sys_close_drained) = true) by evaluate.
  split; [exact reachable_close_drained|]. split; [exact Hl|].
  exact (ended_loop_means_dead_connection reachable_close_drained Ha).
Defined.

(** X5: the teardown case of the loop's [select] can never fire: in
    every reachable state [cc.closech] is nil, and a receive from a nil
    channel parks for ever.  A loop waiting for a body outcome can only
    be released by that outcome. *)
Theorem teardown_case_never_fires s :
  reachable s ->
  closech (sys_cc s) = None /\
  loop_step (select_fires case_closech) (lp s) (sys_cc s) = Blocks /\
  sys_step (EvLoop (select_fires case_closech)) s = None.
Proof.
  intros H. apply reachable_shape in H. destruct H as [_ _ _ Hc _ _].
  assert (Hb : loop_step (select_fires case_closech) (lp s) (sys_cc s) = Blocks).
  { destruct (lp s) as [[|]| | | | | | | | | | | |]; simpl; try reflexivity.
    rewrite Hc. reflexivity. }
  split; [exact Hc|]. split; [exact Hb|].
  unfold sys_step. destruct (crashed s); [reflexivity|]. rewrite Hb. reflexivity.
Qed.

Lemma teardown_case_never_fires_witness :
  reachable sys_body_pending /\
  (exists alive wfb, lp sys_body_pending = LSelect alive wfb) /\
  sys_step (EvLoop (select_fires case_closech)) sys_body_pending = None.
Proof.
  split; [exact reachable_body_pending|].
  split; [eexists; eexists; vm_compute; reflexivity|].
  exact (proj2 (proj2 (teardown_case_never_fires reachable_body_pending))).
Defined.

(* ------------------------------------------------------------------ *)
(** ** What reaches the transport *)

(** X6: along every run of a connection made for transport [c], the
    transport is closed at most once, only [c] itself is ever closed, and
    as long as the connection still holds a transport none was closed. *)
Theorem transport_closed_at_most_once c r0 t s :
  run t (boot c r0) = Some s \/ run t (boot_proxy c r0) = Some s ->
  (conn_closes (wire (world s)) <= 1)%nat /\
  (conn (sys_cc s) <> None -> conn_closes (wire (world s)) = 0%nat) /\
  (forall c', In (io_connClose c') (wire (world s)) -> c = Some c').
Proof.
  intros H.
  assert (Ht : exists f, tidy f c s).
  { destruct H as [H | H].
    - exists Request_Write.
      eapply run_preserves with (s := boot c r0);
        [apply tidy_step | apply tidy_boot | exact H].
    - exists Request_WriteProxy.
      eapply run_preserves with (s := boot_proxy c r0);
        [apply tidy_step | apply tidy_boot_proxy | exact H]. }
  destruct Ht as [f [_ _ _ He Hn Ha]].
  split; [exact Hn|]. split; [exact Ha|].
  intros c' Hin. rewrite Forall_forall in He. exact (He _ Hin).
Qed.

Lemma transport_closed_at_most_once_witness :
  run [EvClose None] sys0 = Some sys_closed /\
  wire (world sys_closed) = [io_connClose 7%nat] /\
  (conn_closes (wire (world sys_closed)) <= 1)%nat /\
  (forall c', In (io_connClose c') (wire (world sys_closed)) -> Some 7%nat = Some c').
Proof.
  assert (Hrun : run [EvClose None] (boot (Some 7%nat) None) = Some sys_closed)
    by evaluate.
  destruct (transport_closed_at_most_once (Some 7%nat) None [EvClose None]
              (or_introl Hrun)) as (H1 & _ & H3).
  split; [exact Hrun|]. split; [evaluate|]. split; [exact H1 | exact H3].
Defined.

(** X7: the serializer of a connection never changes: every serializer
    call of a connection made by [NewClientConn] goes through
    [Request.Write], every one of a connection made by
    [NewProxyClientConn] through [Request.WriteProxy], and each writes
    onto the transport the connection was made for (or onto nil, when the
    connection was hijacked between the liveness check and line 79). *)
Theorem serializer_fixed_at_construction c r0 t s :
  (run t (boot c r0) = Some s ->
   writeReq (sys_cc s) = Request_Write /\
   forall g req c' res, In (io_writeReq g req c' res) (wire (world s)) ->
                        g = Request_Write /\ (c' = c \/ c' = None)) /\
  (run t (boot_proxy c r0) = Some s ->
   writeReq (sys_cc s) = Request_WriteProxy /\
   forall g req c' res, In (io_writeReq g req c' res) (wire (world s)) ->
                        g = Request_WriteProxy /\ (c' = c \/ c' = None)).
Proof.
  split; intros H.
  - assert (Ht : tidy Request_Write c s).
    { eapply run_preserves with (s := boot c r0);
        [apply tidy_step | apply tidy_boot | exact H]. }
    destruct Ht as [Hf _ _ He _ _]. split; [exact Hf|].
    intros g req c' res Hin. rewrite Forall_forall in He. exact (He _ Hin).
  - assert (Ht : tidy Request_WriteProxy c s).
    { eapply run_preserves with (s := boot_proxy c r0);
        [apply tidy_step | apply tidy_boot_proxy | exact H]. }
    destruct Ht as [Hf _ _ He _ _]. split; [exact Hf|].
    intros g req c' res Hin. rewrite Forall_forall in He. exact (He _ Hin).
Qed.

Lemma serializer_fixed_at_construction_witness :
  run (call_write get_a) (boot_proxy (Some 7%nat) None)
    = Some (state_after (call_write get_a) (boot_proxy (Some 7%nat) None)) /\
  wire (world (state_after (call_write get_a) (boot_proxy (Some 7%nat) None)))
    = [io_writeReq Request_WriteProxy get_a (Some 7%nat) None] /\
  writeReq (sys_cc (state_after (call_write get_a) (boot_proxy (Some 7%nat) None)))
    = Request_WriteProxy.
Proof.
  assert (Hrun : run (call_write get_a) (boot_proxy (Some 7%nat) None)
                 = Some (state_after (call_write get_a) (boot_proxy (Some 7%nat) None)))
    by evaluate.
  split; [exact Hrun|]. split; [evaluate|].
  exact (proj1 (proj2 (serializer_fixed_at_construction (Some 7%nat) None
                         (call_write get_a) _) Hrun)).
Defined.

(* ------------------------------------------------------------------ *)
(** ** A dead connection *)

(** X8: once [Ping] fails it fails for ever, and from then on every
    [write] and every [Do] returns the error of [Ping] at once; neither
    reaches the serializer, the request queue or the response queue. *)
Theorem dead_connection_rejects_write_and_Do s t s' req wres sel :
  Ping (sys_cc s) <> None -> run t s = Some s' ->
  exists e, Ping (sys_cc s') = Some e /\
            write req wres (world s') = Ret (Some e, world s') /\
            Do req wres sel (world s') = Ret ((None, Some e), world s').
Proof.
  intros HP Hrun. apply run_decays in Hrun.
  pose proof (decays_Ping Hrun HP) as HP'. unfold sys_cc in *.
  destruct (Ping (cc (world s'))) as [e|] eqn:E; [|congruence].
  exists e. split; [reflexivity|].
  assert (Hw : write req wres (world s') = Ret (Some e, world s')).
  { unfold write. rewrite E. reflexivity. }
  split; [exact Hw|]. unfold Do. rewrite Hw. reflexivity.
Qed.

Lemma dead_connection_rejects_write_and_Do_witness :
  Ping (sys_cc sys_hijacked) <> None /\
  run [EvCallWrite get_a; EvWrite None; EvHijack] sys_hijacked = Some sys_hijacked_again /\
  write get_a None (world sys_hijacked_again)
    = Ret (Some errClosed, world sys_hijacked_again) /\
  Do get_a None sel_respch (world sys_hijacked_again)
    = Ret ((None, Some errClosed), world sys_hijacked_again).
Proof.
  assert (HP : Ping (sys_cc sys_hijacked) <> None) by evaluate.
  assert (Hrun : run [EvCallWrite get_a; EvWrite None; EvHijack] sys_hijacked
                 = Some sys_hijacked_again) by evaluate.
  destruct (@dead_connection_rejects_write_and_Do _ _ _ get_a None sel_respch HP Hrun)
    as (e & He & Hw & Hd).
  assert (Hv : Ping (sys_cc sys_hijacked_again) = Some errClosed) by evaluate.
  rewrite Hv in He. inversion He as [He']. rewrite <- He' in Hw, Hd.
  split; [exact HP|]. split; [exact Hrun|].
  split; [exact Hw | exact Hd].
Defined.

(* ------------------------------------------------------------------ *)
(** ** A write onto a full request queue *)

(** X9: [write] serializes before it queues.  When the request queue is
    full (an earlier request has not been pulled by the loop yet), a
    [write] that passes both checks has already called the serializer,
    and for a request with [Close] set has already stored
    [ErrPersistEOF], when it parks at the send of line 92; run alone it
    never returns. *)
Theorem write_parks_on_full_queue req w q :
  Ping (cc w) = None -> bodyReading (cc w) = false ->
  reqch (cc w) = Some q -> closed q = false -> (cap q <= length (buf q))%nat ->
  write req None w = Blocks /\
  exists w1,
    write_steps 5 None (WPing req) w = Ret (WSend req, w1) /\
    write_step None (WSend req) w1 = Blocks /\
    wire w1 = wire w ++ [io_writeReq (writeReq (cc w)) req (conn (cc w)) None] /\
    we (cc w1) = (if Request.Close req then Some ErrPersistEOF else None).
Proof.
  intros HP HB Hq Hcl Hfull.
  assert (Hsend : forall x, reqch x = reqch (cc w) -> write_send req x = Blocks).
  { intros x Hx. unfold write_send, chan_send. rewrite Hx, Hq, Hcl.
    destruct (Nat.ltb_spec (length (buf q)) (cap q)); [lia | reflexivity]. }
  assert (Hc : exists c, conn (cc w) = Some c /\ we (cc w) = None).
  { unfold Ping in HP. destruct (re (cc w)), (we (cc w)), (conn (cc w));
      try congruence; eauto. }
  destruct Hc as (c & Hc & Hwe).
  split.
  - rewrite write_past_checks by assumption. simpl.
    rewrite Hsend; [reflexivity|].
    unfold write_lock1. simpl. destruct (Request.Close req); reflexivity.
  - simpl. rewrite HP. simpl. unfold waitForBody. rewrite HB. simpl.
    unfold write_lock1, call_writeReq. rewrite Hc. simpl.
    eexists. split; [reflexivity|]. simpl.
    split; [|split].
    + rewrite Hsend; [reflexivity|]. simpl. destruct (Request.Close req); reflexivity.
    + destruct (Request.Close req); reflexivity.
    + destruct (Request.Close req); simpl; auto.
Qed.

Lemma write_parks_on_full_queue_witness :
  Ping (sys_cc sys_awaiting) = None /\ bodyReading (sys_cc sys_awaiting) = false /\
  queued (reqch (sys_cc sys_awaiting)) = [get_a] /\
  write get_a None (world sys_awaiting) = Blocks /\
  run (EvCallWrite get_a :: repeat (EvWrite None) 5) sys_awaiting
    = Some sys_second_write_parked /\
  wp sys_second_write_parked = WSend get_a /\
  sys_step (EvWrite None) sys_second_write_parked = None.
Proof.
  assert (HP : Ping (cc (world sys_awaiting)) = None) by evaluate.
  assert (HB : bodyReading (cc (world sys_awaiting)) = false) by evaluate.
  assert (Hq : reqch (cc (world sys_awaiting))
               = Some {| buf := [get_a]; cap := 1; closed := false |}) by evaluate.
  destruct (@write_parks_on_full_queue get_a (world sys_awaiting) _ HP HB Hq
              eq_refl (le_n 1)) as (Hw & _).
  split; [exact HP|]. split; [exact HB|]. split; [evaluate|]. split; [exact Hw|].
  split; [evaluate|]. split; evaluate.
Defined.

(* ------------------------------------------------------------------ *)
(** ** A body read to its end *)

(** X10: only [fn] called with [io.EOF] sends [true]; when the loop
    receives [true] it leaves [alive] and the connection as they are,
    clears the body flag and returns to the loop test, so it goes on to
    the next probe exactly when the exchange was not judged the last
    one. *)
Theorem body_read_to_EOF_keeps_connection alive wfb rest x :
  chan_recv wfb = Ret (Some true, rest) ->
  (forall b, body_signal b = true <-> b = fn io_EOF) /\
  loop_step (select_fires case_waitForBodyRead) (LSelect alive wfb) x
    = Ret (LClearBodyReading alive, x) /\
  loop_step tau (LClearBodyReading alive) x = Ret (LHead alive, setBodyReading false x) /\
  re (setBodyReading false x) = re x /\
  Ping (setBodyReading false x) = Ping x.
Proof.
  intros H. split; [|split; [|split; [|split]]].
  - intros b. destruct b as [|err]; simpl; [split; discriminate|].
    unfold is_EOF. destruct (error_eq_dec err io_EOF) as [E | E]; split;
      intros H'; try congruence; inv H'; congruence.
  - simpl. rewrite H. simpl. rewrite andb_true_r. reflexivity.
  - reflexivity.
  - reflexivity.
  - reflexivity.
Qed.

Lemma body_read_to_EOF_keeps_connection_witness :
  chan_recv (Some {| buf := [true]; cap := 2; closed := false |})
    = Ret (Some true, Some {| buf := []; cap := 2; closed := false |}) /\
  loop_step (select_fires case_waitForBodyRead)
    (LSelect true (Some {| buf := [true]; cap := 2; closed := false |}))
    (sys_cc sys_body_pending)
    = Ret (LClearBodyReading true, sys_cc sys_body_pending).
Proof.
  split; [reflexivity|].
  exact (proj1 (proj2 (@body_read_to_EOF_keeps_connection true
                         (Some {| buf := [true]; cap := 2; closed := false |})
                         (Some {| buf := []; cap := 2; closed := false |})
                         (sys_cc sys_body_pending) eq_refl))).
Defined.

(* ------------------------------------------------------------------ *)
(** ** A complete exchange *)

Lemma lastExchange_false rc resp :
  lastExchange rc resp = false ->
  Response.Close resp = false /\ Request.Close rc = false /\
  (199 < Response.StatusCode resp)%Z.
Proof.
  unfold lastExchange. rewrite !orb_false_iff, Z.leb_gt. tauto.
Qed.

(** The run of one complete exchange from an idle connection. *)
Lemma exchange_run s req resp :
  idle s -> hasBody req resp = true -> lastExchange req resp = false ->
  exists s1 s2,
    run (exchange_up_to_publication req resp) s = Some s1 /\
    queued (respch (sys_cc s1))
      = [Response.with_Body (bodyEOFSignal (Response.Body resp)) resp] /\
    bodyReading (sys_cc s1) = true /\
    run (exchange_drain req) s1 = Some s2 /\
    idle s2 /\
    wire (world s2)
      = wire (world s) ++ [io_writeReq (writeReq (sys_cc s)) req (conn (sys_cc s)) None] /\
    writeReq (sys_cc s2) = writeReq (sys_cc s) /\ conn (sys_cc s2) = conn (sys_cc s).
Proof.
  intros (HP & Hr & HB & Hq & Hp & Hl & Hw & Hc) Hb Hlast.
  apply lastExchange_false in Hlast as Hparts. destruct Hparts as (_ & Hcl & _).
  open_state s. subst.
  unfold Ping in HP. simpl in HP.
  destruct re0; [discriminate HP|]. destruct we0; [discriminate HP|].
  destruct conn0 as [c|]; [|discriminate HP].
  destruct r0 as [b|]; [|congruence].
  assert (Hstart : sys_step (EvCallWrite req)
            {| world := {| cc := {| conn := Some c; r := Some b; bodyReading := false;
                                    re := None; we := None;
                                    reqch := make Request.t 1;
                                    respch := make Response.t 1;
                                    closech := closech0; writeReq := writeReq0 |};
                           wire := log |};
               lp := LHead true; wp := wpc; crashed := None |}
          = Some {| world := {| cc := {| conn := Some c; r := Some b; bodyReading := false;
                                         re := None; we := None;
                                         reqch := make Request.t 1;
                                         respch := make Response.t 1;
                                         closech := closech0; writeReq := writeReq0 |};
                                wire := log |};
                    lp := LHead true; wp := WPing req; crashed := None |}).
  { destruct Hw as [-> | [res ->]]; reflexivity. }
  unfold exchange_up_to_publication, exchange_drain, call_write.
  cbn [app repeat run]. rewrite Hstart.
  cbn -[hasBody lastExchange]. unfold write_lock1. rewrite Hcl.
  cbn -[hasBody lastExchange]. rewrite Hlast, Hb.
  cbn -[hasBody lastExchange].
  eexists. eexists. split; [reflexivity|].
  cbn. split; [reflexivity|]. split; [reflexivity|]. split; [reflexivity|].
  split; [|split; [reflexivity|split; reflexivity]].
  unfold idle, sys_cc. cbn. repeat split; try reflexivity; try discriminate.
  right. eauto.
Qed.


(** X11: one complete exchange takes an idle connection back to idle.
    From a live connection between exchanges, for a request and a
    response that carries a body and is not judged the last one: the
    write, the loop's probe, pull, parse and judgement and the
    publication leave exactly the response, with its body wrapped, in the
    response queue and the body flag set; after the caller's read, the
    body read to [io.EOF] and the loop's [select], the connection is idle
    again, still live, and the only effect was one serializer call. *)
Theorem exchange_returns_to_idle s req resp :
  idle s -> hasBody req resp = true -> lastExchange req resp = false ->
  exists s1 s2,
    run (exchange_up_to_publication req resp) s = Some s1 /\
    queued (respch (sys_cc s1))
      = [Response.with_Body (bodyEOFSignal (Response.Body resp)) resp] /\
    bodyReading (sys_cc s1) = true /\
    run (exchange_drain req) s1 = Some s2 /\
    idle s2 /\
    wire (world s2)
      = wire (world s) ++ [io_writeReq (writeReq (sys_cc s)) req (conn (sys_cc s)) None].
Proof.
  intros Hi Hb Hl.
  destruct (@exchange_run s req resp Hi Hb Hl)
    as (s1 & s2 & H1 & H2 & H3 & H4 & H5 & H6 & _).
  exists s1, s2. split; [exact H1|]. split; [exact H2|]. split; [exact H3|].
  split; [exact H4|]. split; [exact H5 | exact H6].
Qed.

Lemma exchange_returns_to_idle_witness :
  idle sys0 /\ hasBody get_a resp_hello = true /\ lastExchange get_a resp_hello = false /\
  run (exchange_up_to_publication get_a resp_hello ++ exchange_drain get_a) sys0
    = Some sys_after_exchange /\
  idle sys_after_exchange.
Proof.
  assert (Hi : idle sys0).
  { unfold idle. repeat split; try reflexivity; try discriminate. left; reflexivity. }
  destruct (@exchange_returns_to_idle sys0 get_a resp_hello Hi eq_refl eq_refl)
    as (s1 & s2 & H1 & _ & _ & H2 & Hidle & _).
  assert (Hrun : run (exchange_up_to_publication get_a resp_hello ++ exchange_drain get_a)
                   sys0 = Some sys_after_exchange) by evaluate.
  split; [exact Hi|]. split; [reflexivity|]. split; [reflexivity|].
  split; [exact Hrun|].
  unfold sys_after_exchange, state_after. rewrite run_app_eq, H1, H2. exact Hidle.
Defined.

(* ------------------------------------------------------------------ *)
(** ** Who touches what *)

(** X12: the read loop never changes the transport field, the reader
    field, the write error, the teardown channel or the serializer of the
    connection, and the only thing it does to the request queue is to
    take its first request. *)
Theorem readLoop_frame i pc x pc' x' :
  loop_step i pc x = Ret (pc', x') ->
  conn x' = conn x /\ r x' = r x /\ we x' = we x /\
  closech x' = closech x /\ writeReq x' = writeReq x /\
  (reqch x' = reqch x \/
   exists rc, pc = LRecvReq /\ pc' = LReadResponse rc /\
              queued (reqch x) = rc :: queued (reqch x')).
Proof.
  intros H. destruct pc; destruct i; simpl in H; try discriminate H;
    unfold bind in H; break_hyp H; inv H; simpl; repeat split; auto.
  right. exists t. repeat split.
  unfold chan_recv in E. destruct (reqch x) as [q|]; [|discriminate E].
  destruct (buf q) as [|a rest] eqn:Eb.
  - destruct (closed q); discriminate E.
  - inv E. simpl. rewrite Eb. reflexivity.
Qed.

Lemma readLoop_frame_witness :
  loop_step tau LRecvReq (sys_cc sys_awaiting)
    = Ret (LReadResponse get_a, set_reqch (make Request.t 1) (sys_cc sys_awaiting)) /\
  we (set_reqch (make Request.t 1) (sys_cc sys_awaiting)) = we (sys_cc sys_awaiting) /\
  conn (set_reqch (make Request.t 1) (sys_cc sys_awaiting)) = conn (sys_cc sys_awaiting).
Proof.
  assert (H : loop_step tau LRecvReq (sys_cc sys_awaiting)
              = Ret (LReadResponse get_a,
                     set_reqch (make Request.t 1) (sys_cc sys_awaiting))) by evaluate.
  destruct (readLoop_frame _ _ _ H) as (Hc & _ & Hwe & _).
  split; [exact H|]. split; [exact Hwe | exact Hc].
Defined.

(** X13: no block of [write], and so no [write], changes the read error,
    the body flag, the response queue, the transport field, the reader
    field, the teardown channel or the serializer; what it adds to the
    effect log is at most one serializer call. *)
Theorem write_frame wres pc w pc' w' :
  write_step wres pc w = Ret (pc', w') ->
  re (cc w') = re (cc w) /\ bodyReading (cc w') = bodyReading (cc w) /\
  respch (cc w') = respch (cc w) /\ conn (cc w') = conn (cc w) /\
  r (cc w') = r (cc w) /\ closech (cc w') = closech (cc w) /\
  writeReq (cc w') = writeReq (cc w) /\
  (wire w' = wire w \/
   exists req c, pc = WWriteReq req c /\
                 wire w' = wire w ++ [io_writeReq (writeReq (cc w)) req c wres]).
Proof.
  intros H. destruct pc; simpl in H; try discriminate H;
    unfold write_lock1, call_writeReq, write_send, bind in H;
    break_hyp H; inv H; simpl; repeat split; auto;
    right; eexists; eexists; split; reflexivity.
Qed.

Lemma write_frame_witness :
  write_step None (WWriteReq get_a (Some 7%nat)) (world sys0)
    = Ret (WLock2 get_a None,
           emit (io_writeReq Request_Write get_a (Some 7%nat) None) (world sys0)) /\
  re (cc (emit (io_writeReq Request_Write get_a (Some 7%nat) None) (world sys0)))
    = re (cc (world sys0)).
Proof.
  assert (H : write_step None (WWriteReq get_a (Some 7%nat)) (world sys0)
              = Ret (WLock2 get_a None,
                     emit (io_writeReq Request_Write get_a (Some 7%nat) None) (world sys0)))
    by evaluate.
  split; [exact H|]. exact (proj1 (write_frame _ _ _ H)).
Defined.

(* ------------------------------------------------------------------ *)
(** ** The loop after a detachment *)

Lemma reader_nil_step ev s s' :
  r (sys_cc s) = None -> sys_step ev s = Some s' -> r (sys_cc s') = None.
Proof.
  intros Hr H. open_state s. subst. step_cases H.
  - destruct (loop_step i pc _) as [[pc' x']| |msg] eqn:E; inv H; simpl; auto.
    apply readLoop_frame in E. destruct E as (_ & E & _). exact E.
  - destruct (body_step b pc) as [pc'| |msg]; inv H; reflexivity.
  - destruct wpc; inv H; reflexivity.
  - destruct (write_step wres wpc _) as [[pc' w']| |msg] eqn:E; inv H; simpl; auto.
    apply write_frame in E. destruct E as (_ & _ & _ & _ & E & _). exact E.
  - destruct sel; simpl in H; unfold bind in H; break_hyp H; inv H; reflexivity.
  - inv H. reflexivity.
  - unfold Close, chan_close, bind in H. simpl in H.
    break_hyp H; inv H; reflexivity.
  - unfold loop_call in H. destruct pc; simpl in H; try discriminate H;
      break_hyp H; injection H as <-; reflexivity.
Qed.

(** X14: a nil reader is dereferenced at the call, not at the return.
    [Hijack] and [Close] leave the loop goroutine running with a nil
    reader field, and the field stays nil.  In every state reached
    afterwards, a loop that then makes the call [cc.r.Peek(1)] or
    [http.ReadResponse(cc.r, rc)] panics and the process dies; a loop
    that was already waiting inside such a call is not affected: the call
    returns and the loop goes on with the connection as it is. *)
Theorem detached_reader_panics_at_the_call s t s' :
  r (sys_cc s) = None -> run t s = Some s' -> crashed s' = None ->
  r (sys_cc s') = None /\
  (about_to_call (lp s') = true ->
   sys_step EvLoopCall s' = Some (crash nil_deref s')) /\
  (inside_call (lp s') = true ->
   sys_step EvLoopCall s' = None /\
   forall i s'', sys_step (EvLoop i) s' = Some s'' ->
                 crashed s'' = None /\ sys_cc s'' = sys_cc s' /\
                 match lp s', i with
                 | LPeeking, peek_result None => lp s'' = LRecvReq
                 | LPeeking, peek_result (Some _) => lp s'' = LPeekFailed
                 | LParsing rc, parse_result (inl resp) => lp s'' = LJudge rc resp
                 | LParsing rc, parse_result (inr err) => lp s'' = LParseFailed err
                 | _, _ => False
                 end) /\
  (lp s' = LPeeking -> forall e, sys_step (EvLoop (peek_result e)) s' <> None) /\
  (forall rc, lp s' = LParsing rc ->
   forall res, sys_step (EvLoop (parse_result res)) s' <> None).
Proof.
  intros Hr Hrun Hc.
  assert (Hr' : r (sys_cc s') = None).
  { apply (@run_preserves (fun a => r (sys_cc a) = None) reader_nil_step t s s' Hr Hrun). }
  split; [exact Hr'|].
  unfold sys_step. rewrite Hc.
  split; [|split; [|split]].
  - intros Ha. destruct (lp s') as [[|]| | | | | | | | | | | |]; simpl in Ha;
      try discriminate Ha; simpl; rewrite Hr'; reflexivity.
  - intros Hi. destruct (lp s') as [[|]| | | | | | | | | | | |]; simpl in Hi;
      try discriminate Hi; (split; [reflexivity|]);
      intros i s'' H; destruct i as [|e|res|k]; simpl in H; try discriminate H.
    + destruct e; inv H; simpl; auto.
    + destruct res; inv H; simpl; auto.
  - intros Hl e. rewrite Hl. simpl. destruct e; discriminate.
  - intros rc Hl res. rewrite Hl. simpl. destruct res; discriminate.
Qed.

(** X14 on the fresh connection: hijacked before the loop made its first
    call, the call panics; hijacked while the loop waits inside the
    probe, the probe returns and the loop goes on. *)
Lemma detached_reader_panics_at_the_call_witness :
  r (sys_cc sys_hijacked) = None /\
  run [EvCallWrite get_a; EvWrite None; EvHijack] sys_hijacked = Some sys_hijacked_again /\
  option_map crashed (sys_step EvLoopCall sys_hijacked_again) = Some (Some nil_deref) /\
  r (sys_cc sys_parked_hijacked) = None /\ lp sys_parked_hijacked = LPeeking /\
  sys_step (EvLoop (peek_result None)) sys_parked_hijacked <> None.
Proof.
  assert (Hr : r (sys_cc sys_hijacked) = None) by evaluate.
  assert (Hrun : run [EvCallWrite get_a; EvWrite None; EvHijack] sys_hijacked
                 = Some sys_hijacked_again) by evaluate.
  assert (Hc : crashed sys_hijacked_again = None) by evaluate.
  assert (Ha : about_to_call (lp sys_hijacked_again) = true) by evaluate.
  assert (Hr2 : r (sys_cc sys_parked_hijacked) = None) by evaluate.
  assert (Hrun2 : run [] sys_parked_hijacked = Some sys_parked_hijacked) by reflexivity.
  assert (Hc2 : crashed sys_parked_hijacked = None) by evaluate.
  assert (Hl2 : lp sys_parked_hijacked = LPeeking) by evaluate.
  destruct (@detached_reader_panics_at_the_call _ _ _ Hr Hrun Hc) as (_ & Hpanic & _).
  destruct (@detached_reader_panics_at_the_call _ _ _ Hr2 Hrun2 Hc2)
    as (_ & _ & _ & Hreturn & _).
  split; [exact Hr|]. split; [exact Hrun|].
  split; [rewrite (Hpanic Ha); reflexivity|].
  split; [exact Hr2|]. split; [exact Hl2|]. exact (Hreturn Hl2 None).
Defined.

(* ------------------------------------------------------------------ *)
(** ** Requests the loop will not handle *)

Lemma marked_keeps_requests_step ev s s' :
  marked (lp s) = true -> sys_step ev s = Some s' ->
  exists l, queued (reqch (sys_cc s')) = queued (reqch (sys_cc s)) ++ l.
Proof.
  intros Hm H. open_state s. step_cases H.
  - destruct (loop_step i pc _) as [[pc' x']| |msg] eqn:E; inv H; simpl;
      [|exists []; rewrite app_nil_r; reflexivity].
    apply readLoop_frame in E.
    destruct E as (_ & _ & _ & _ & _ & [E | (rc & -> & _)]);
      [|discriminate Hm].
    unfold sys_cc. simpl in *. rewrite E. exists []. rewrite app_nil_r. reflexivity.
  - destruct (body_step b pc) as [pc'| |msg]; inv H;
      exists []; rewrite app_nil_r; reflexivity.
  - destruct wpc; inv H; exists []; rewrite app_nil_r; reflexivity.
  - destruct wpc; simpl in H; try discriminate H;
      unfold write_lock1, call_writeReq, write_send, bind in H; simpl in H;
      break_hyp H; inv H; simpl;
      try (exists []; rewrite app_nil_r; reflexivity).
    apply chan_send_queued in E. rewrite E. eauto.
  - destruct sel; simpl in H; unfold bind in H; break_hyp H; inv H;
      exists []; rewrite app_nil_r; reflexivity.
  - inv H. exists []. rewrite app_nil_r. reflexivity.
  - unfold Close, chan_close, bind in H. simpl in H.
    break_hyp H; inv H; exists []; rewrite app_nil_r; reflexivity.
  - unfold loop_call in H. destruct pc; simpl in H; try discriminate H;
      break_hyp H; injection H as <-; exists []; rewrite app_nil_r; reflexivity.
Qed.

(** X15: once the loop is marked for termination (its [alive] is false,
    or it is leaving through a [break], or it has returned) it never
    pulls a request again: whatever is in the request queue stays there,
    in every later state, and a request a caller still manages to queue
    is never answered. *)
Theorem marked_loop_pulls_no_request t : forall s s',
  marked (lp s) = true -> run t s = Some s' ->
  marked (lp s') = true /\
  exists l, queued (reqch (sys_cc s')) = queued (reqch (sys_cc s)) ++ l.
Proof.
  induction t as [|ev t IH]; simpl; intros s s' Hm H.
  - inv H. split; [exact Hm|]. exists []. rewrite app_nil_r. reflexivity.
  - destruct (sys_step ev s) as [s1|] eqn:E; [|discriminate H].
    pose proof (@marked_sys_step _ _ _ Hm E) as Hm1.
    destruct (@marked_keeps_requests_step _ _ _ Hm E) as [l1 H1].
    destruct (IH s1 s' Hm1 H) as (Hm' & l2 & H2).
    split; [exact Hm'|]. exists (l1 ++ l2). rewrite H2, H1, app_assoc. reflexivity.
Qed.

Lemma marked_loop_pulls_no_request_witness :
  marked (lp sys_probe_failed) = true /\
  run [EvLoop tau; EvRead get_a (sel_ctxDone (ext "context canceled"))] sys_probe_failed
    = Some sys_left_behind /\
  queued (reqch (sys_cc sys_probe_failed)) = [get_a] /\
  lp sys_left_behind = LStopped /\
  exists l, queued (reqch (sys_cc sys_left_behind))
            = queued (reqch (sys_cc sys_probe_failed)) ++ l.
Proof.
  assert (Hm : marked (lp sys_probe_failed) = true) by evaluate.
  assert (Hrun : run [EvLoop tau; EvRead get_a (sel_ctxDone (ext "context canceled"))]
                   sys_probe_failed = Some sys_left_behind) by evaluate.
  split; [exact Hm|]. split; [exact Hrun|]. split; [evaluate|]. split; [evaluate|].
  exact (proj2 (@marked_loop_pulls_no_request _ _ _ Hm Hrun)).
Defined.

(* ------------------------------------------------------------------ *)
(** ** Exchanges in a row *)

(** X16: any number of complete exchanges can follow one another.  From
    an idle connection, for any list of requests and responses each of
    which carries a body and is not judged the last one, running the
    exchanges one after the other is possible, ends in an idle and still
    live connection, and has logged exactly one successful serializer
    call per request, in the order of the requests. *)
Theorem exchanges_in_a_row l : forall s,
  idle s -> Forall keeps_alive l ->
  exists s',
    run (exchanges l) s = Some s' /\ idle s' /\
    wire (world s') = wire (world s) ++ map (sent (sys_cc s)) l.
Proof.
  induction l as [|p l IH]; intros s Hi Hl.
  - exists s. simpl. rewrite app_nil_r. auto.
  - inversion Hl as [|p' l' [Hb Hlast] Hrest]; subst.
    destruct (@exchange_run s (fst p) (snd p) Hi Hb Hlast)
      as (s1 & s2 & H1 & _ & _ & H2 & Hi2 & Hw & Hf & Hc).
    destruct (IH s2 Hi2 Hrest) as (s' & Hrun & Hi' & Hw').
    exists s'. split; [|split; [exact Hi'|]].
    + change (exchanges (p :: l)) with (exchange p ++ exchanges l).
      unfold exchange. rewrite !run_app_eq, H1, H2. exact Hrun.
    + rewrite Hw', Hw. simpl. rewrite <- app_assoc. simpl.
      unfold sent. rewrite Hf, Hc. reflexivity.
Qed.

Lemma exchanges_in_a_row_witness :
  idle sys0 /\ Forall keeps_alive [(get_a, resp_hello); (get_b, resp_hello)] /\
  run (exchanges [(get_a, resp_hello); (get_b, resp_hello)]) sys0
    = Some sys_after_two_exchanges /\
  idle sys_after_two_exchanges /\
  wire (world sys_after_two_exchanges)
    = [io_writeReq Request_Write get_a (Some 7%nat) None;
       io_writeReq Request_Write get_b (Some 7%nat) None].
Proof.
  assert (Hi : idle sys0).
  { unfold idle. repeat split; try reflexivity; try discriminate. left; reflexivity. }
  assert (Hl : Forall keeps_alive [(get_a, resp_hello); (get_b, resp_hello)]).
  { repeat constructor. }
  destruct (@exchanges_in_a_row _ sys0 Hi Hl) as (s' & Hrun & Hi' & _).
  split; [exact Hi|]. split; [exact Hl|]. split; [evaluate|].
  split; [|evaluate].
  unfold sys_after_two_exchanges, state_after. rewrite Hrun. exact Hi'.
Defined.
